(** * Crazy cubes: the rotation engine and the pairing solver of
    [crazycubes.py], embedded and verified.

    The file follows the source top to bottom: the input table, the
    geometry engine ([get_valid_rotation] with its three generator
    rotations and its breadth-first search), then the solver
    ([solve_specific_format]: pair extraction, direction-set enumeration,
    compatible-pair search, chirality resolution and the reporting loop). *)

From Stdlib Require Import List ZArith Bool Arith Lia Permutation Sorted.
From Stdlib Require String Ascii DecimalString.
From Equations Require Import Equations.
From Equations.Prop Require Import Logic.
Import ListNotations.

Set Implicit Arguments.
Local Open Scope Z_scope.

(* ===================================================================== *)
(** ** Cubes                                                              *)
(* ===================================================================== *)

(** A cube is the Python list [[T, B, F, Bk, L, R]]: six face values in
    slot order.  [faceN] is the source's [c[N]]. *)
Record cube (A : Type) : Type := Cube {
  face0 : A;  (* Top *)
  face1 : A;  (* Bottom *)
  face2 : A;  (* Front *)
  face3 : A;  (* Back *)
  face4 : A;  (* Left *)
  face5 : A   (* Right *)
}.

(** The six slots, named as in the source comment
    [Indices: 0=T, 1=B, 2=F, 3=Bk, 4=L, 5=R]. *)
Inductive slot : Type := Top | Bottom | Front | Back | Left | Right.

Definition slot_index (s : slot) : nat :=
  match s with
  | Top => 0 | Bottom => 1 | Front => 2 | Back => 3 | Left => 4 | Right => 5
  end.

Definition slot_eqb (s t : slot) : bool := (slot_index s =? slot_index t)%nat.

(** The slot on the other end of the same axis. *)
Definition opposite (s : slot) : slot :=
  match s with
  | Top => Bottom | Bottom => Top
  | Front => Back | Back => Front
  | Left => Right | Right => Left
  end.

Definition adjacent (s t : slot) : Prop := s <> t /\ opposite s <> t.

Definition all_slots : list slot := [Top; Bottom; Front; Back; Left; Right].

Section CubeOps.
Context {A : Type}.

Definition get (c : cube A) (s : slot) : A :=
  match s with
  | Top => face0 c | Bottom => face1 c
  | Front => face2 c | Back => face3 c
  | Left => face4 c | Right => face5 c
  end.

(** [list(c)]: the six values in slot order. *)
Definition faces (c : cube A) : list A :=
  [face0 c; face1 c; face2 c; face3 c; face4 c; face5 c].

(** The three 90 degree rotations of the source (lines 34-41). *)
Definition pitch (c : cube A) : cube A :=
  Cube (face2 c) (face3 c) (face1 c) (face0 c) (face4 c) (face5 c).

Definition yaw (c : cube A) : cube A :=
  Cube (face0 c) (face1 c) (face4 c) (face5 c) (face3 c) (face2 c).

Definition roll (c : cube A) : cube A :=
  Cube (face4 c) (face5 c) (face2 c) (face3 c) (face1 c) (face0 c).

(** Orientations obtained by composing the generators. *)
Inductive reachable (c : cube A) : cube A -> Prop :=
| reach_start : reachable c c
| reach_pitch s : reachable c s -> reachable c (pitch s)
| reach_yaw s : reachable c s -> reachable c (yaw s)
| reach_roll s : reachable c s -> reachable c (roll s).

(** Pairwise distinct face values. *)
Definition distinct_faces (c : cube A) : Prop := NoDup (faces c).

Fixpoint iter (n : nat) (g : cube A -> cube A) (c : cube A) : cube A :=
  match n with
  | O => c
  | S n' => g (iter n' g c)
  end.

(** The 24 orientations, listed by hand: each of the six faces is brought
    to the front (four by yaw, two by pitch), then the cube is spun about
    the front-back axis. *)
Definition to_front (c : cube A) : list (cube A) :=
  [c; yaw c; yaw (yaw c); yaw (yaw (yaw c)); pitch c; pitch (pitch (pitch c))].

Definition spins (c : cube A) : list (cube A) :=
  [c; roll c; roll (roll c); roll (roll (roll c))].

Definition orientations (c : cube A) : list (cube A) :=
  flat_map spins (to_front c).
End CubeOps.

Definition cmap {A B : Type} (f : A -> B) (c : cube A) : cube B :=
  Cube (f (face0 c)) (f (face1 c)) (f (face2 c))
       (f (face3 c)) (f (face4 c)) (f (face5 c)).

(** The cube whose faces carry their own slot names. *)
Definition slots : cube slot := Cube Top Bottom Front Back Left Right.

(* ===================================================================== *)
(** ** 2. Geometry engine: [get_valid_rotation]                           *)
(* ===================================================================== *)

Section GeometryEngine.
Context {A : Type} (eqb : A -> A -> bool).

(** Equality of [tuple(state)] values. *)
Definition cube_eqb (c d : cube A) : bool :=
  eqb (face0 c) (face0 d) && eqb (face1 c) (face1 d) &&
  eqb (face2 c) (face2 d) && eqb (face3 c) (face3 d) &&
  eqb (face4 c) (face4 d) && eqb (face5 c) (face5 d).

(** [state_tuple in seen].  The source's [seen] is a set of tuples; it is
    kept here as the list of its elements, latest first, so that the order
    of discovery stays visible.  Only membership and [len] are used. *)
Definition mem (s : cube A) (seen : list (cube A)) : bool :=
  existsb (cube_eqb s) seen.

(** Every state that is expanded adds one element to [seen] and three to
    the queue, and states are expanded only while [len(seen) < 24]. *)
Definition bfs_measure (queue seen : list (cube A)) : nat :=
  (3 * (24 - length seen) + length queue)%nat.

Variables target_front target_left : A.

(** [state[2] == target_front and state[4] == target_left]. *)
Definition hits (state : cube A) : bool :=
  eqb (face2 state) target_front && eqb (face4 state) target_left.

(** The loop [for state in queue] of lines 77-92.  [queue] is the part of
    the Python list not yet iterated over; appending to the list while it
    is iterated extends that part at its end.  The result is the returned
    value together with [seen] as it is when the function returns. *)
Equations? bfs (queue seen : list (cube A)) : option (cube A) * list (cube A)
  by wf (bfs_measure queue seen) lt :=
bfs [] seen := (None, seen);
bfs (state :: rest) seen with mem state seen := {
  | true := bfs rest seen;
  | false with hits state := {
    | true := (Some state, state :: seen);
    | false with inspect (length (state :: seen) <? 24)%nat := {
      | exist _ true Hlt :=
          bfs (rest ++ [pitch state; yaw state; roll state]) (state :: seen);
      | exist _ false _ := bfs rest (state :: seen) } } }.
Proof.
  all: unfold bfs_measure; rewrite ?length_app; cbn [length].
  all: try (apply Nat.ltb_lt in Hlt; cbn [length] in Hlt); lia.
Qed.

End GeometryEngine.

(** [get_valid_rotation(cube_data, target_front, target_left)].  The
    [attempts] list of lines 44-64 is built and never read; it has no
    effect on the result. *)
Definition get_valid_rotation {A : Type} (eqb : A -> A -> bool)
    (cube_data : cube A) (target_front target_left : A) : option (cube A) :=
  fst (bfs eqb target_front target_left [cube_data] []).

(** The value of [seen] when [get_valid_rotation] returns: the states the
    search visited, latest first. *)
Definition visited {A : Type} (eqb : A -> A -> bool)
    (cube_data : cube A) (target_front target_left : A) : list (cube A) :=
  snd (bfs eqb target_front target_left [cube_data] []).

(* ===================================================================== *)
(** ** Python lists and exceptions                                        *)
(* ===================================================================== *)

(** The only exception the solver can raise on lists of integers. *)
Inductive exn : Type := IndexError.

Inductive result (A : Type) : Type :=
| Ok (a : A)
| Raise (e : exn).
Arguments Raise {A} e.

Definition bind {A B : Type} (r : result A) (k : A -> result B) : result B :=
  match r with
  | Ok a => k a
  | Raise e => Raise e
  end.

Notation "x <- r ;; k" := (bind r (fun x => k))
  (at level 61, r at next level, right associativity).

(** [l[i]] for [i >= 0]. *)
Definition index {A : Type} (l : list A) (i : nat) : result A :=
  match nth_error l i with
  | Some x => Ok x
  | None => Raise IndexError
  end.

(** [[f(x) for x in l]] where [f] may raise. *)
Fixpoint mapM {A B : Type} (f : A -> result B) (l : list A) : result (list B) :=
  match l with
  | [] => Ok []
  | x :: rest => y <- f x ;; ys <- mapM f rest ;; Ok (y :: ys)
  end.

(** [itertools.product(pool, repeat=n)]: the rightmost position advances
    fastest. *)
Fixpoint product {A : Type} (pool : list A) (repeat : nat) : list (list A) :=
  match repeat with
  | O => [[]]
  | S n => flat_map (fun x => map (cons x) (product pool n)) pool
  end.

(* ===================================================================== *)
(** ** 3. Solver logic: [solve_specific_format]                           *)
(* ===================================================================== *)

Definition pair : Type := (Z * Z)%type.

(** [tuple(sorted((a, b)))]. *)
Definition sorted2 (a b : Z) : pair := if b <? a then (b, a) else (a, b).

(** Lines 104-108: the pairs (0-1), (2-3), (4-5) of one cube. *)
Definition extract_pairs (c : cube Z) : list pair :=
  [sorted2 (face0 c) (face1 c);
   sorted2 (face2 c) (face3 c);
   sorted2 (face4 c) (face5 c)].

Definition cube_pairs (cubes : list (cube Z)) : list (list pair) :=
  map extract_pairs cubes.

(** An entry of [valid_configs]: the dict [{'axes': ..., 'pairs': ...}]. *)
Record config : Type := Config {
  axes : list nat;
  pairs : list pair
}.

(** [selected_pairs] of lines 116-118: [cube_pairs[i][pair_idx]] for each
    [(i, pair_idx)] of [enumerate(indices)], [i] counting from [start]. *)
Fixpoint select_pairs (cp : list (list pair)) (start : nat) (indices : list nat)
  : result (list pair) :=
  match indices with
  | [] => Ok []
  | pair_idx :: rest =>
      ps <- index cp start ;;
      p <- index ps pair_idx ;;
      sel <- select_pairs cp (S start) rest ;;
      Ok (p :: sel)
  end.

(** [all_numbers]: every selected pair extends the list by its two
    members. *)
Definition numbers (selected : list pair) : list Z :=
  flat_map (fun p => [fst p; snd p]) selected.

(** [all(Counter(all_numbers)[k] == 2 for k in range(1, 7))]. *)
Definition each_twice (all_numbers : list Z) : bool :=
  forallb (fun k => (count_occ Z.eq_dec all_numbers k =? 2)%nat)
          [1; 2; 3; 4; 5; 6].

(** The loop of lines 113-122 over the combinations still to be tried;
    accepted combinations are appended in the order they are met. *)
Fixpoint enumerate (cp : list (list pair)) (combos : list (list nat))
  : result (list config) :=
  match combos with
  | [] => Ok []
  | indices :: more =>
      selected_pairs <- select_pairs cp 0 indices ;;
      later <- enumerate cp more ;;
      Ok (if each_twice (numbers selected_pairs)
          then Config indices selected_pairs :: later
          else later)
  end.

Definition valid_configs (cubes : list (cube Z)) : result (list config) :=
  enumerate (cube_pairs cubes) (product [0; 1; 2]%nat 6).

(** Lines 133-137.  [axes] is always one of the 6-tuples of [product], so
    the six subscripts are in range. *)
Definition collision (c1 c2 : config) : bool :=
  existsb (fun k => (nth k (axes c1) 0 =? nth k (axes c2) 0)%nat) (seq 0 6).

(** Lines 130-140, the body of the inner loop: what is appended to
    [solutions] for [c1 = valid_configs[i]] and [c2 = valid_configs[j]]. *)
Definition scan_cell (vc : list config) (i j : nat) : list (config * config) :=
  match nth_error vc i, nth_error vc j with
  | Some c1, Some c2 => if collision c1 c2 then [] else [(c1, c2)]
  | _, _ => []
  end.

(** Line 129: [for j in range(i + 1, len(valid_configs))]. *)
Definition scan_row (vc : list config) (i : nat) : list (config * config) :=
  flat_map (scan_cell vc i) (seq (i + 1) (length vc - (i + 1))).

(** Lines 127-140: all pairs [(valid_configs[i], valid_configs[j])] with
    [i < j] and no collision, in loop order. *)
Definition solutions (vc : list config) : list (config * config) :=
  flat_map (scan_row vc) (seq 0 (length vc)).

(** [p[f]] on a 2-tuple. *)
Definition pair_index (p : pair) (f : nat) : result Z :=
  match f with
  | 0%nat => Ok (fst p)
  | 1%nat => Ok (snd p)
  | _ => Raise IndexError
  end.

(** [[pairs_list[k][flips[k]] for k in range(6)]]. *)
Definition primary_of (pairs_list : list pair) (flips : list nat)
  : result (list Z) :=
  mapM (fun k => p <- index pairs_list k ;;
                 f <- index flips k ;;
                 pair_index p f)
       (seq 0 6).

(** [len(set(primary)) == 6]. *)
Definition six_distinct (primary : list Z) : bool :=
  (length (nodup Z.eq_dec primary) =? 6)%nat.

(** The loop of lines 152-156 over the flip combinations still to be
    tried. *)
Fixpoint resolve_loop (pairs_list : list pair) (combos : list (list nat))
  : result (list Z) :=
  match combos with
  | [] => Ok []
  | flips :: more =>
      primary <- primary_of pairs_list flips ;;
      if six_distinct primary then Ok primary
      else resolve_loop pairs_list more
  end.

Definition resolve_orientation (pairs_list : list pair) : result (list Z) :=
  resolve_loop pairs_list (product [0; 1]%nat 6).

(** What the reporting loop prints for one cube. *)
Inductive line : Type :=
| Row (number : nat) (f bk l r t b : Z)
| ErrorRow (number : nat) (target_f target_l : Z).

(** Lines 172-179: rotate the original cube and print its row, or the
    error marker when no rotation is found. *)
Definition print_row (i : nat) (c : cube Z) (target_f target_l : Z) : line :=
  match get_valid_rotation Z.eqb c target_f target_l with
  | Some rotated =>
      Row (i + 1) (face2 rotated) (face3 rotated) (face4 rotated)
          (face5 rotated) (face0 rotated) (face1 rotated)
  | None => ErrorRow (i + 1) target_f target_l
  end.

(** The body of the loop of lines 165-179 for index [i]. *)
Definition report_row (cubes : list (cube Z)) (final_fronts final_lefts : list Z)
    (i : nat) : result line :=
  target_f <- index final_fronts i ;;
  target_l <- index final_lefts i ;;
  c <- index cubes i ;;
  Ok (print_row i c target_f target_l).

Definition report_rows (cubes : list (cube Z)) (final_fronts final_lefts : list Z)
  : result (list line) :=
  mapM (report_row cubes final_fronts final_lefts) (seq 0 6).

(** What a run prints: the count of valid direction sets, then either
    [NO SOLUTION FOUND.] or the table with one line per cube. *)
Inductive report : Type :=
| NoSolution (found : nat)
| Table (found : nat) (rows : list line).

Definition solve_specific_format (cubes : list (cube Z)) : result report :=
  vc <- valid_configs cubes ;;
  match solutions vc with
  | [] => Ok (NoSolution (length vc))
  | (sol_fb, sol_lr) :: _ =>
      final_fronts <- resolve_orientation (pairs sol_fb) ;;
      final_lefts <- resolve_orientation (pairs sol_lr) ;;
      rows <- report_rows cubes final_fronts final_lefts ;;
      Ok (Table (length vc) rows)
  end.

(** ** 1. Input data *)
Definition my_cubes : list (cube Z) :=
  [ Cube 4 1 2 5 6 3;
    Cube 6 4 5 2 3 1;
    Cube 6 3 5 2 1 4;
    Cube 5 3 4 6 2 1;
    Cube 3 6 2 1 4 5;
    Cube 4 5 6 3 1 2 ].


(* ===================================================================== *)
(** ** What is printed                                                    *)
(* ===================================================================== *)

Module Render.
Import Stdlib.Strings.String Stdlib.Strings.Ascii Stdlib.Numbers.DecimalString.
Local Open Scope string_scope.

(** [str(z)] for an integer. *)
Definition str_int (z : Z) : string := NilZero.string_of_int (Z.to_int z).

(** [str(n)] for a count or a cube number. *)
Definition str_nat (n : nat) : string := NilZero.string_of_uint (Nat.to_uint n).

(** [c * n]. *)
Fixpoint repeat_char (c : ascii) (n : nat) : string :=
  match n with
  | O => EmptyString
  | S n' => String c (repeat_char c n')
  end.

(** The format specification [:<width]: left-aligned, filled with spaces
    up to [width], never cut. *)
Definition ljust (width : nat) (s : string) : string :=
  s ++ repeat_char " "%char (width - length s).

(** Line 162. *)
Definition header : string :=
  ljust 5 "CUBE" ++ " | " ++ ljust 6 "FRONT" ++ " " ++ ljust 6 "BACK" ++ " | "
  ++ ljust 6 "LEFT" ++ " " ++ ljust 6 "RIGHT" ++ " | "
  ++ ljust 6 "TOP" ++ " " ++ ljust 6 "BOTTOM".

(** Lines 177 and 179. *)
Definition render_line (row : line) : string :=
  match row with
  | Row number f bk l r t b =>
      "#" ++ ljust 4 (str_nat number) ++ " | "
      ++ ljust 6 (str_int f) ++ " " ++ ljust 6 (str_int bk) ++ " | "
      ++ ljust 6 (str_int l) ++ " " ++ ljust 6 (str_int r) ++ " | "
      ++ ljust 6 (str_int t) ++ " " ++ ljust 6 (str_int b)
  | ErrorRow number target_f target_l =>
      "#" ++ ljust 4 (str_nat number)
      ++ " | ERROR: Impossible Geometry for F=" ++ str_int target_f
      ++ ", L=" ++ str_int target_l
  end.

(** The arguments of the [print] calls of a run that completes, in
    order (lines 99, 124, 143, 161-163, 177/179, 181). *)
Definition render (rep : report) : list string :=
  match rep with
  | NoSolution found =>
      [ "Solving with 3D Geometry Validation...";
        "Found " ++ str_nat found ++ " valid single-direction sets.";
        "NO SOLUTION FOUND." ]
  | Table found rows =>
      [ "Solving with 3D Geometry Validation...";
        "Found " ++ str_nat found ++ " valid single-direction sets.";
        String (ascii_of_nat 10) (repeat_char "="%char 70);
        header;
        repeat_char "="%char 70 ]
      ++ map render_line rows
      ++ [ repeat_char "-"%char 70 ]
  end.
End Render.

(* ===================================================================== *)
(** ** Vocabulary of the statements                                       *)
(* ===================================================================== *)

(** [a] and [b] sit on two faces of [c] that share an edge. *)
Definition on_adjacent_faces {A : Type} (c : cube A) (a b : A) : Prop :=
  exists i j, adjacent i j /\ get c i = a /\ get c j = b.

(** [a] and [b] sit on the two ends of one axis of [c]. *)
Definition on_opposite_faces {A : Type} (c : cube A) (a b : A) : Prop :=
  exists i, get c i = a /\ get c (opposite i) = b.

(** [p] is the unordered pair of [x] and [y]. *)
Definition same_pair (p : pair) (x y : Z) : Prop := p = (x, y) \/ p = (y, x).




(** Whether the enumeration loop accepts the combination [indices]. *)
Definition accepted (cp : list (list pair)) (indices : list nat) : bool :=
  match select_pairs cp 0 indices with
  | Ok selected => each_twice (numbers selected)
  | Raise _ => false
  end.

(** No cube position where the two direction sets choose the same axis. *)
Definition compatible (c1 c2 : config) : Prop :=
  forall k, (k < 6)%nat -> nth k (axes c1) 0%nat <> nth k (axes c2) 0%nat.

(** Position [(i', j')] comes before [(i, j)] in the scan of lines
    128-129. *)
Definition scanned_before (i' j' i j : nat) : Prop :=
  (i' < i)%nat \/ (i' = i /\ (j' < j)%nat).

(** A face value of the puzzle: one of 1..6. *)
Definition in_range (x : Z) : bool := (1 <=? x) && (x <=? 6).

(** The 21 sorted pairs of face values. *)
Definition candidates : list pair :=
  flat_map (fun a => map (fun b => (a, b))
                         (filter (fun b => a <=? b) [1; 2; 3; 4; 5; 6]))
           [1; 2; 3; 4; 5; 6].

(** Occurrences of [k] in [l], counted with the boolean equality. *)
Fixpoint cnt (k : Z) (l : list Z) : nat :=
  match l with
  | [] => 0%nat
  | x :: rest => if x =? k then S (cnt k rest) else cnt k rest
  end.

(** With [p] in front of [suffix], one of the two members of [p] occurs
    more than twice. *)
Definition crowded (p : pair) (suffix : list pair) : bool :=
  let l := numbers (p :: suffix) in
  if (2 <? cnt (fst p) l)%nat then true else (2 <? cnt (snd p) l)%nat.

Fixpoint memZ (x : Z) (l : list Z) : bool :=
  match l with
  | [] => false
  | y :: rest => if x =? y then true else memZ x rest
  end.

(** One member can be picked from each pair of [ps], all picks different
    from each other and from the values in [used]. *)
Fixpoint choose (ps : list pair) (used : list Z) : bool :=
  match ps with
  | [] => true
  | p :: rest =>
      if (if memZ (fst p) used then false else choose rest (fst p :: used))
      then true
      else if memZ (snd p) used then false else choose rest (snd p :: used)
  end.

(** [x] is one of the two members of [p]. *)
Definition picks (p : pair) (x : Z) : Prop := x = fst p \/ x = snd p.

(** Exhaustive check: every way of putting [n] more sorted pairs in front
    of [suffix] that uses each of 1..6 twice admits a choice of pairwise
    different members.  Branches in which a value already occurs three
    times are cut. *)
Fixpoint all_choosable (n : nat) (suffix : list pair) : bool :=
  match n with
  | O => if each_twice (numbers suffix) then choose suffix [] else true
  | S m =>
      forallb (fun p => if crowded p suffix then true
                        else all_choosable m (p :: suffix))
              candidates
  end.

(** [base = yaw(base); attempts.append(base)], [n] times. *)
Fixpoint yaw_run {A : Type} (n : nat) (base : cube A) : list (cube A) :=
  match n with
  | O => []
  | S n' => yaw base :: yaw_run n' (yaw base)
  end.

(** Lines 44-64: the list [attempts] that [get_valid_rotation] builds
    before its search and never reads. *)
Definition attempts {A : Type} (current : cube A) : list (cube A) :=
  (current :: yaw_run 3 current)
  ++ (pitch current :: yaw_run 3 (pitch current))
  ++ (pitch (pitch (pitch current))
      :: yaw_run 3 (pitch (pitch (pitch current)))).

(** The index in [extract_pairs] of the pair a slot belongs to:
    0 for Top/Bottom, 1 for Front/Back, 2 for Left/Right. *)
Definition slot_axis (s : slot) : nat :=
  match s with
  | Top | Bottom => 0
  | Front | Back => 1
  | Left | Right => 2
  end.

Definition adjacentb (s t : slot) : bool :=
  negb (slot_eqb s t) && negb (slot_eqb (opposite s) t).


Section SearchSpec.
Context {A : Type} (eqb : A -> A -> bool).
Variables (start : cube A) (target_front target_left : A).

Local Notation "'hit'" := (hits eqb target_front target_left).

(** Every neighbour of [s] is already in [seen] or waits in [queue]. *)
Definition expanded (queue seen : list (cube A)) (s : cube A) : Prop :=
  In (pitch s) (seen ++ queue) /\ In (yaw s) (seen ++ queue) /\
  In (roll s) (seen ++ queue).

Record search_invariant (queue seen : list (cube A)) : Prop := {
  inv_nodup : NoDup seen;
  inv_seen : forall s, In s seen -> reachable start s;
  inv_queue : forall s, In s queue -> reachable start s;
  inv_miss : forall s, In s seen -> hit s = false;
  inv_start : In start (seen ++ queue);
  inv_closed :
    (forall s, In s seen -> expanded queue seen s) \/ (24 <= length seen)%nat
}.

(** What holds of the pair returned by the loop. *)
Definition search_result (res : option (cube A) * list (cube A)) : Prop :=
  NoDup (snd res) /\
  (forall s, In s (snd res) -> reachable start s) /\
  match fst res with
  | Some s =>
      exists earlier, snd res = s :: earlier /\ hit s = true /\
                      forall t, In t earlier -> hit t = false
  | None =>
      (forall s, reachable start s -> In s (snd res)) /\
      (forall s, In s (snd res) -> hit s = false)
  end.

End SearchSpec.

(* ===================================================================== *)
(** ** Facts about cubes and their orientations                           *)
(* ===================================================================== *)

Lemma slot_eqb_eq (s t : slot) : slot_eqb s t = true <-> s = t.
Proof.
  split.
  - destruct s, t; simpl; intros H; try reflexivity; discriminate H.
  - intros ->. destruct t; reflexivity.
Qed.

Section CubeFacts.
Context {A B : Type} (f : A -> B).

Lemma pitch_cmap (c : cube A) : pitch (cmap f c) = cmap f (pitch c).
Proof. reflexivity. Qed.

Lemma yaw_cmap (c : cube A) : yaw (cmap f c) = cmap f (yaw c).
Proof. reflexivity. Qed.

Lemma roll_cmap (c : cube A) : roll (cmap f c) = cmap f (roll c).
Proof. reflexivity. Qed.

Lemma orientations_cmap (c : cube A) :
  orientations (cmap f c) = map (cmap f) (orientations c).
Proof. reflexivity. Qed.
End CubeFacts.

Lemma cmap_get_slots {A : Type} (c : cube A) : cmap (get c) slots = c.
Proof. destruct c; reflexivity. Qed.

(** Every orientation of [c] is an orientation of [slots] read through
    [c]. *)
Lemma orientations_by_slots {A : Type} (c : cube A) :
  orientations c = map (cmap (get c)) (orientations slots).
Proof. destruct c; reflexivity. Qed.

Lemma get_cmap {A B : Type} (f : A -> B) (c : cube A) (s : slot) :
  get (cmap f c) s = f (get c s).
Proof. destruct s; reflexivity. Qed.

Lemma orientations_length {A : Type} (c : cube A) :
  length (orientations c) = 24%nat.
Proof. reflexivity. Qed.

Lemma orientations_start {A : Type} (c : cube A) : In c (orientations c).
Proof. left; reflexivity. Qed.

(** Permutations between explicit lists: move the head of the left list to
    its place in the right list. *)
Ltac solve_perm :=
  repeat first
    [ apply Permutation_refl
    | apply perm_skip
    | apply (Permutation_cons_app [_] _ _); cbn [app]
    | apply (Permutation_cons_app [_; _] _ _); cbn [app]
    | apply (Permutation_cons_app [_; _; _] _ _); cbn [app]
    | apply (Permutation_cons_app [_; _; _; _] _ _); cbn [app]
    | apply (Permutation_cons_app [_; _; _; _; _] _ _); cbn [app] ].

Ltac find_in_list := repeat (first [left; reflexivity | right]).

Section Orbit.
Context {A : Type}.
Implicit Types c s : cube A.

(** The hand-written list is closed under the three generators. *)
Lemma orientations_closed c s :
  In s (orientations c) ->
  In (pitch s) (orientations c) /\ In (yaw s) (orientations c) /\
  In (roll s) (orientations c).
Proof.
  destruct c as [t b f k l r].
  unfold orientations, to_front, spins; cbn.
  intros H.
  repeat (destruct H as [<- | H];
          [ cbn; repeat split; find_in_list | ]).
  contradiction.
Qed.

Lemma reachable_orientations c s : reachable c s -> In s (orientations c).
Proof.
  induction 1 as [ | s _ IH | s _ IH | s _ IH ].
  - apply orientations_start.
  - apply (orientations_closed IH).
  - apply (orientations_closed IH).
  - apply (orientations_closed IH).
Qed.

Lemma reachable_iter_yaw c s n : reachable c s -> reachable c (iter n yaw s).
Proof. intros H; induction n; simpl; [assumption | now apply reach_yaw]. Qed.

Lemma reachable_iter_pitch c s n :
  reachable c s -> reachable c (iter n pitch s).
Proof. intros H; induction n; simpl; [assumption | now apply reach_pitch]. Qed.

Lemma reachable_iter_roll c s n :
  reachable c s -> reachable c (iter n roll s).
Proof. intros H; induction n; simpl; [assumption | now apply reach_roll]. Qed.

Lemma orientations_reachable c s : In s (orientations c) -> reachable c s.
Proof.
  unfold orientations, to_front, spins; cbn.
  intros H.
  repeat (destruct H as [<- | H]; [ repeat constructor | ]).
  contradiction.
Qed.

(** Rotations only move face values around. *)
Lemma reachable_faces c s : reachable c s -> Permutation (faces s) (faces c).
Proof.
  induction 1 as [ | s _ IH | s _ IH | s _ IH ].
  - reflexivity.
  - rewrite <- IH. destruct s as [t b f k l r]; cbn. solve_perm.
  - rewrite <- IH. destruct s as [t b f k l r]; cbn. solve_perm.
  - rewrite <- IH. destruct s as [t b f k l r]; cbn. solve_perm.
Qed.
End Orbit.

(* ===================================================================== *)
(** ** The search loop and its invariant                                   *)
(* ===================================================================== *)

Section SearchInvariant.
Context {A : Type} (eqb : A -> A -> bool).
Hypothesis eqb_eq : forall x y, eqb x y = true <-> x = y.
Variables (start : cube A) (target_front target_left : A).

Local Notation "'hit'" := (hits eqb target_front target_left).
Local Notation "'search'" := (bfs eqb target_front target_left).
Local Notation "'invariant'" :=
  (search_invariant eqb start target_front target_left).
Local Notation "'outcome'" :=
  (search_result eqb start target_front target_left).

Lemma cube_eqb_eq (c d : cube A) : cube_eqb eqb c d = true <-> c = d.
Proof.
  destruct c, d; unfold cube_eqb; cbn.
  rewrite !andb_true_iff, !eqb_eq.
  split.
  - intros [[[[[-> ->] ->] ->] ->] ->]. reflexivity.
  - intros H; injection H; intros; subst; repeat split.
Qed.

Lemma mem_In (s : cube A) (seen : list (cube A)) :
  mem eqb s seen = true <-> In s seen.
Proof.
  unfold mem. rewrite existsb_exists. split.
  - intros [d [Hd Heq]]. apply cube_eqb_eq in Heq. now subst.
  - intros H. exists s. split; [assumption | now apply cube_eqb_eq].
Qed.

Lemma mem_not_In (s : cube A) (seen : list (cube A)) :
  mem eqb s seen = false <-> ~ In s seen.
Proof.
  rewrite <- mem_In. destruct (mem eqb s seen); split; congruence.
Qed.

Lemma hit_true (s : cube A) :
  hit s = true <-> face2 s = target_front /\ face4 s = target_left.
Proof. unfold hits. now rewrite andb_true_iff, !eqb_eq. Qed.

Lemma seen_bound (seen : list (cube A)) :
  NoDup seen -> (forall s, In s seen -> reachable start s) ->
  (length seen <= 24)%nat.
Proof.
  intros Hnd Hreach.
  rewrite <- (orientations_length start).
  apply NoDup_incl_length; [assumption | ].
  intros s Hs. apply reachable_orientations, Hreach, Hs.
Qed.

(** When the queue has run dry, everything reachable has been seen. *)
Lemma exhausted (seen : list (cube A)) :
  invariant [] seen -> forall s, reachable start s -> In s seen.
Proof.
  intros [Hnd Hseen _ _ Hstart Hclosed]. rewrite app_nil_r in Hstart.
  destruct Hclosed as [Hexp | Hfull].
  - induction 1 as [ | s _ IH | s _ IH | s _ IH ]; [assumption | | | ];
      destruct (Hexp s IH) as (Hp & Hy & Hr);
      rewrite app_nil_r in Hp, Hy, Hr; assumption.
  - intros s Hs. apply reachable_orientations in Hs.
    revert s Hs. apply NoDup_length_incl; [assumption | | ].
    + rewrite orientations_length. exact Hfull.
    + intros s Hs. apply reachable_orientations, Hseen, Hs.
Qed.

Lemma invariant_skip state rest seen :
  invariant (state :: rest) seen -> In state seen -> invariant rest seen.
Proof.
  intros [Hnd Hseen Hqueue Hmiss Hstart Hclosed] Hin.
  assert (Hmove : forall s, In s (seen ++ state :: rest) -> In s (seen ++ rest)).
  { intros s Hs. apply in_app_or in Hs. apply in_or_app.
    destruct Hs as [Hs | [<- | Hs]]; auto. }
  split; auto.
  - intros s Hs. apply Hqueue. now right.
  - destruct Hclosed as [Hexp | Hfull]; [left | now right].
    intros s Hs. destruct (Hexp s Hs) as (Hp & Hy & Hr).
    repeat split; apply Hmove; assumption.
Qed.

Lemma invariant_expand state rest seen :
  invariant (state :: rest) seen -> ~ In state seen -> hit state = false ->
  invariant (rest ++ [pitch state; yaw state; roll state]) (state :: seen).
Proof.
  intros [Hnd Hseen Hqueue Hmiss Hstart Hclosed] Hnew Hno.
  assert (Hst : reachable start state) by (apply Hqueue; now left).
  assert (Hmove : forall s, In s (seen ++ state :: rest) ->
            In s ((state :: seen) ++ rest ++ [pitch state; yaw state; roll state])).
  { intros s Hs. apply in_app_or in Hs. cbn.
    destruct Hs as [Hs | [<- | Hs]]; [right | now left | right];
      apply in_or_app; [now left | right; apply in_or_app; now left]. }
  split.
  - constructor; assumption.
  - intros s [<- | Hs]; auto.
  - intros s Hs. apply in_app_or in Hs.
    destruct Hs as [Hs | [<- | [<- | [<- | []]]]].
    + apply Hqueue. now right.
    + now apply reach_pitch.
    + now apply reach_yaw.
    + now apply reach_roll.
  - intros s [<- | Hs]; auto.
  - now apply Hmove.
  - destruct Hclosed as [Hexp | Hfull]; [left | right; cbn; lia].
    intros s [<- | Hs].
    + repeat split; cbn; right; apply in_or_app; right; apply in_or_app;
        right; cbn; auto.
    + destruct (Hexp s Hs) as (Hp & Hy & Hr).
      repeat split; apply Hmove; assumption.
Qed.

Lemma invariant_full state rest seen :
  invariant (state :: rest) seen -> ~ In state seen -> hit state = false ->
  (length (state :: seen) <? 24)%nat = false ->
  invariant rest (state :: seen).
Proof.
  intros [Hnd Hseen Hqueue Hmiss Hstart Hclosed] Hnew Hno Hlen.
  apply Nat.ltb_ge in Hlen.
  split.
  - constructor; assumption.
  - intros s [<- | Hs]; auto. apply Hqueue. now left.
  - intros s Hs. apply Hqueue. now right.
  - intros s [<- | Hs]; auto.
  - apply in_app_or in Hstart. cbn.
    destruct Hstart as [Hs | [<- | Hs]]; [right | now left | right];
      apply in_or_app; auto.
  - now right.
Qed.

Ltac fresh_state :=
  match goal with
  | Hm : mem _ _ _ = false |- _ => apply mem_not_In in Hm
  end.

Theorem bfs_outcome queue seen : invariant queue seen -> outcome (search queue seen).
Proof.
  funelim (bfs eqb target_front target_left queue seen); intros Hinv.
  - (* the queue is empty *)
    simp bfs. unfold search_result; cbn.
    split; [apply (inv_nodup Hinv) | split; [apply (inv_seen Hinv) | split]].
    + now apply exhausted.
    + apply (inv_miss Hinv).
  - (* already seen *)
    apply H, invariant_skip with (state := state); [assumption | ].
    now apply mem_In.
  - (* the target is found *)
    fresh_state.
    unfold search_result; cbn.
    split; [constructor; [assumption | apply (inv_nodup Hinv)] | split].
    + intros s [<- | Hs];
        [apply (inv_queue Hinv); now left | now apply (inv_seen Hinv)].
    + exists seen. repeat split; [assumption | apply (inv_miss Hinv)].
  - (* the state is expanded *)
    fresh_state. apply H, invariant_expand; assumption.
  - (* the state is kept but not expanded *)
    fresh_state. apply H, invariant_full; assumption.
Qed.

Lemma invariant_init : invariant [start] [].
Proof.
  split; cbn; try contradiction.
  - constructor.
  - intros s [<- | []]. constructor.
  - now left.
  - left. contradiction.
Qed.

Corollary search_outcome : outcome (search [start] []).
Proof. apply bfs_outcome, invariant_init. Qed.
End SearchInvariant.

(* ===================================================================== *)
(** ** Which (Front, Left) pairs the 24 orientations offer                *)
(* ===================================================================== *)

Lemma adjacentb_adjacent (s t : slot) : adjacentb s t = true <-> adjacent s t.
Proof.
  unfold adjacentb, adjacent.
  rewrite andb_true_iff, !negb_true_iff.
  split; intros [H1 H2]; split.
  - intros E. apply slot_eqb_eq in E. congruence.
  - intros E. apply slot_eqb_eq in E. congruence.
  - destruct (slot_eqb s t) eqn:E; [apply slot_eqb_eq in E; contradiction | reflexivity].
  - destruct (slot_eqb (opposite s) t) eqn:E;
      [apply slot_eqb_eq in E; contradiction | reflexivity].
Qed.

(** Each adjacent pair of slots is brought to (Front, Left) by one of the
    24 orientations. *)
Lemma orientation_for (i j : slot) :
  adjacent i j ->
  exists p, In p (orientations slots) /\ face2 p = i /\ face4 p = j.
Proof.
  intros Hadj. apply adjacentb_adjacent in Hadj.
  assert (H : existsb (fun p => slot_eqb (face2 p) i && slot_eqb (face4 p) j)
                (orientations slots) = true).
  { destruct i, j; try discriminate Hadj; reflexivity. }
  apply existsb_exists in H. destruct H as [p [Hp Hq]].
  apply andb_true_iff in Hq. destruct Hq as [H2 H4].
  exists p. now rewrite <- !slot_eqb_eq.
Qed.

(** No orientation shows the two ends of one axis, or one face twice, as
    Front and Left. *)
Lemma orientation_adjacent (p : cube slot) :
  In p (orientations slots) -> adjacent (face2 p) (face4 p).
Proof.
  intros Hp. apply adjacentb_adjacent. revert p Hp.
  apply forallb_forall. reflexivity.
Qed.

Lemma orientations_slots_nodup : NoDup (orientations slots).
Proof.
  unfold orientations, to_front, spins; cbn.
  repeat (constructor; [ cbn; intuition discriminate | ]).
  constructor.
Qed.

Section DistinctFaces.
Context {A : Type} (c : cube A).
Hypothesis Hdistinct : distinct_faces c.

Lemma get_injective (i j : slot) : get c i = get c j -> i = j.
Proof.
  destruct c as [t b f k l r]. unfold distinct_faces, faces in Hdistinct.
  cbn in Hdistinct.
  repeat match goal with
         | H : NoDup (_ :: _) |- _ =>
             let Hn := fresh "Hn" in
             apply NoDup_cons_iff in H; destruct H as [Hn H]; cbn in Hn
         end.
  destruct i, j; cbn; intros E; try reflexivity; exfalso; subst; tauto.
Qed.

Lemma cmap_get_injective (p q : cube slot) :
  cmap (get c) p = cmap (get c) q -> p = q.
Proof.
  destruct p, q; unfold cmap; cbn. intros E; injection E; intros.
  f_equal; now apply get_injective.
Qed.

Lemma orientations_nodup : NoDup (orientations c).
Proof.
  rewrite orientations_by_slots.
  apply NoDup_map_NoDup_ForallPairs.
  - intros p q _ _. apply cmap_get_injective.
  - apply orientations_slots_nodup.
Qed.
End DistinctFaces.

(* ===================================================================== *)
(** ** The geometry engine: results                                       *)
(* ===================================================================== *)

Section StartState.
Context {A : Type} (eqb : A -> A -> bool).
Hypothesis eqb_eq : forall x y, eqb x y = true <-> x = y.

(** The starting state is tested before any generator is applied. *)
Lemma bfs_start_hit (c : cube A) (tf tl : A) :
  hits eqb tf tl c = true -> bfs eqb tf tl [c] [] = (Some c, [c]).
Proof.
  intros Hhit. simp bfs. cbn. rewrite Hhit. cbn. reflexivity.
Qed.
End StartState.

Section SearchResults.
Context {A : Type} (eqb : A -> A -> bool).
Hypothesis eqb_eq : forall x y, eqb x y = true <-> x = y.
Variables (c : cube A) (a b : A).

(** The search succeeds as soon as some orientation fits. *)
Lemma search_finds :
  (exists s, reachable c s /\ face2 s = a /\ face4 s = b) ->
  exists r, get_valid_rotation eqb c a b = Some r /\
            reachable c r /\ face2 r = a /\ face4 r = b.
Proof.
  intros [s [Hs Hfit]].
  destruct (search_outcome eqb eqb_eq c a b) as (_ & Hreach & Hres).
  unfold get_valid_rotation.
  destruct (bfs eqb a b [c] []) as [[r | ] seen]; cbn in *.
  - destruct Hres as (earlier & -> & Hhit & _).
    exists r. split; [reflexivity | split].
    + apply Hreach. now left.
    + now apply (hit_true eqb eqb_eq).
  - destruct Hres as [Hall Hmiss].
    apply (hit_true eqb eqb_eq) in Hfit.
    rewrite (Hmiss s (Hall s Hs)) in Hfit. discriminate.
Qed.

(** It fails when no orientation fits. *)
Lemma search_fails :
  (forall s, reachable c s -> ~ (face2 s = a /\ face4 s = b)) ->
  get_valid_rotation eqb c a b = None.
Proof.
  intros Hnone.
  destruct (search_outcome eqb eqb_eq c a b) as (_ & Hreach & Hres).
  unfold get_valid_rotation.
  destruct (bfs eqb a b [c] []) as [[r | ] seen]; cbn in *;
    [ | reflexivity].
  destruct Hres as (earlier & -> & Hhit & _).
  exfalso. apply (Hnone r).
  - apply Hreach. now left.
  - now apply (hit_true eqb eqb_eq).
Qed.

Lemma adjacent_fits :
  on_adjacent_faces c a b ->
  exists s, reachable c s /\ face2 s = a /\ face4 s = b.
Proof.
  intros (i & j & Hadj & <- & <-).
  destruct (orientation_for Hadj) as (p & Hp & <- & <-).
  exists (cmap (get c) p). split.
  - apply orientations_reachable.
    rewrite orientations_by_slots. now apply in_map.
  - destruct p; split; reflexivity.
Qed.

Lemma opposite_never_fits :
  distinct_faces c -> on_opposite_faces c a b ->
  forall s, reachable c s -> ~ (face2 s = a /\ face4 s = b).
Proof.
  intros Hd (i & <- & <-) s Hs [H2 H4].
  apply reachable_orientations in Hs.
  rewrite orientations_by_slots in Hs.
  apply in_map_iff in Hs. destruct Hs as (p & <- & Hp).
  apply orientation_adjacent in Hp. destruct Hp as [_ Hopp].
  apply Hopp.
  change (face2 (cmap (get c) p)) with (get c (face2 p)) in H2.
  change (face4 (cmap (get c) p)) with (get c (face4 p)) in H4.
  apply (get_injective Hd) in H2, H4. congruence.
Qed.
End SearchResults.

(** C10.  Identity shortcut: when the cube already shows [target_front] in
    its Front slot (index 2) and [target_left] in its Left slot (index 4),
    [get_valid_rotation] returns the cube itself, unchanged. *)
Theorem get_valid_rotation_identity (c : cube Z) (target_front target_left : Z) :
  face2 c = target_front -> face4 c = target_left ->
  get_valid_rotation Z.eqb c target_front target_left = Some c.
Proof.
  intros H2 H4. unfold get_valid_rotation.
  rewrite bfs_start_hit; [reflexivity | ].
  apply (hit_true Z.eqb Z.eqb_eq). now split.
Qed.

Lemma get_valid_rotation_identity_witness :
  get_valid_rotation Z.eqb (Cube 4 1 2 5 6 3) 2 6 = Some (Cube 4 1 2 5 6 3).
Proof.
  apply (get_valid_rotation_identity (Cube 4 1 2 5 6 3)); reflexivity.
Defined.

(** C5.  For every cube (duplicate face values included) and every pair of
    targets the breadth-first search is a total function: it stops with the
    set [seen] holding at most 24 pairwise different states, all of them
    orientations of the input.  It returns either the first state it
    discovered that has the targets in Front and Left (no state visited
    before it matches), or [None], and then every orientation reachable by
    the generators has been visited and none matches. *)
Theorem bfs_visits_at_most_24 (c : cube Z) (target_front target_left : Z) :
  let seen := visited Z.eqb c target_front target_left in
  NoDup seen /\ (length seen <= 24)%nat /\
  (forall s, In s seen -> reachable c s) /\
  match get_valid_rotation Z.eqb c target_front target_left with
  | Some state =>
      exists earlier,
        seen = state :: earlier /\
        face2 state = target_front /\ face4 state = target_left /\
        forall t, In t earlier ->
                  ~ (face2 t = target_front /\ face4 t = target_left)
  | None =>
      (forall s, reachable c s -> In s seen) /\
      (forall s, In s seen ->
                 ~ (face2 s = target_front /\ face4 s = target_left))
  end.
Proof.
  unfold visited, get_valid_rotation.
  destruct (search_outcome Z.eqb Z.eqb_eq c target_front target_left)
    as (Hnd & Hreach & Hres).
  cbn zeta. split; [assumption | split; [ | split; [assumption | ]]].
  - now apply seen_bound with (start := c).
  - destruct (fst (bfs Z.eqb target_front target_left [c] [])) as [state | ].
    + destruct Hres as (earlier & Hseen & Hhit & Hmiss).
      exists earlier. apply (hit_true Z.eqb Z.eqb_eq) in Hhit.
      repeat split; try tauto.
      intros t Ht Hfit. apply (hit_true Z.eqb Z.eqb_eq) in Hfit.
      rewrite (Hmiss t Ht) in Hfit. discriminate.
    + destruct Hres as [Hall Hmiss]. split; [assumption | ].
      intros s Hs Hfit. apply (hit_true Z.eqb Z.eqb_eq) in Hfit.
      rewrite (Hmiss s Hs) in Hfit. discriminate.
Qed.

(** C1.  On a cube with six different face values, for values [a] and [b]
    on adjacent faces, [get_valid_rotation] returns a cube whose faces are a
    permutation of the input's, with [a] in Front (index 2) and [b] in Left
    (index 4), reachable from the input by pitch, yaw and roll, and hence one
    of its 24 different orientations. *)
Theorem get_valid_rotation_adjacent (c : cube Z) (a b : Z) :
  distinct_faces c -> on_adjacent_faces c a b ->
  exists r,
    get_valid_rotation Z.eqb c a b = Some r /\
    Permutation (faces r) (faces c) /\
    face2 r = a /\ face4 r = b /\
    reachable c r /\
    In r (orientations c) /\ NoDup (orientations c) /\
    length (orientations c) = 24%nat.
Proof.
  intros Hd Hadj.
  destruct (search_finds Z.eqb Z.eqb_eq (adjacent_fits Hadj)) as (r & Hr & Hreach & H2 & H4).
  exists r. repeat split; try assumption.
  - now apply reachable_faces.
  - now apply reachable_orientations.
  - now apply orientations_nodup.
Qed.

Ltac nodup_Z :=
  repeat (constructor;
          [ cbn; let H := fresh in
                 intros H; repeat destruct H as [H | H];
                 try discriminate H; try contradiction | ]);
  try constructor.

Lemma get_valid_rotation_adjacent_witness :
  distinct_faces (Cube 4 1 2 5 6 3) /\
  on_adjacent_faces (Cube 4 1 2 5 6 3) 3 4 /\
  exists r,
    get_valid_rotation Z.eqb (Cube 4 1 2 5 6 3) 3 4 = Some r /\
    Permutation (faces r) (faces (Cube 4 1 2 5 6 3)) /\
    face2 r = 3 /\ face4 r = 4 /\
    reachable (Cube 4 1 2 5 6 3) r /\
    In r (orientations (Cube 4 1 2 5 6 3)) /\
    NoDup (orientations (Cube 4 1 2 5 6 3)) /\
    length (orientations (Cube 4 1 2 5 6 3)) = 24%nat.
Proof.
  assert (Hd : distinct_faces (Cube 4 1 2 5 6 3)).
  { unfold distinct_faces, faces; cbn. nodup_Z. }
  assert (Ha : on_adjacent_faces (Cube 4 1 2 5 6 3) 3 4).
  { exists Right, Top. repeat split; discriminate. }
  split; [exact Hd | split; [exact Ha | ]].
  exact (get_valid_rotation_adjacent Hd Ha).
Defined.

(* ===================================================================== *)
(** ** Opposing pairs                                                     *)
(* ===================================================================== *)

Lemma sorted2_same_pair (x y : Z) : same_pair (sorted2 x y) x y.
Proof. unfold sorted2, same_pair. destruct (y <? x); auto. Qed.

Lemma sorted2_sym (x y : Z) : sorted2 x y = sorted2 y x.
Proof.
  unfold sorted2.
  destruct (Z.ltb_spec y x), (Z.ltb_spec x y); try reflexivity; try lia.
  f_equal; lia.
Qed.

Lemma sorted2_members (x y : Z) :
  Permutation [fst (sorted2 x y); snd (sorted2 x y)] [x; y].
Proof.
  unfold sorted2. destruct (y <? x); cbn; [apply perm_swap | reflexivity].
Qed.

(** C8.  Pair extraction is a total function on cubes: it returns exactly
    three pairs, the unordered pairs of the slot groups (Top, Bottom),
    (Front, Back) and (Left, Right) in that order, and the six members of
    the three pairs are the six face values of the cube, each slot counted
    once. *)
Theorem extract_pairs_three_axes (c : cube Z) :
  exists p0 p1 p2,
    extract_pairs c = [p0; p1; p2] /\
    same_pair p0 (face0 c) (face1 c) /\
    same_pair p1 (face2 c) (face3 c) /\
    same_pair p2 (face4 c) (face5 c) /\
    Permutation (numbers (extract_pairs c)) (faces c).
Proof.
  exists (sorted2 (face0 c) (face1 c)), (sorted2 (face2 c) (face3 c)),
         (sorted2 (face4 c) (face5 c)).
  split; [reflexivity | ].
  repeat split; try apply sorted2_same_pair.
  unfold extract_pairs, numbers, faces; cbn [flat_map app].
  change [face0 c; face1 c; face2 c; face3 c; face4 c; face5 c]
    with ([face0 c; face1 c] ++ [face2 c; face3 c] ++ [face4 c; face5 c]).
  change (fst (sorted2 (face0 c) (face1 c))
          :: snd (sorted2 (face0 c) (face1 c))
          :: fst (sorted2 (face2 c) (face3 c))
          :: snd (sorted2 (face2 c) (face3 c))
          :: fst (sorted2 (face4 c) (face5 c))
          :: [snd (sorted2 (face4 c) (face5 c))])
    with ([fst (sorted2 (face0 c) (face1 c)); snd (sorted2 (face0 c) (face1 c))]
          ++ [fst (sorted2 (face2 c) (face3 c)); snd (sorted2 (face2 c) (face3 c))]
          ++ [fst (sorted2 (face4 c) (face5 c)); snd (sorted2 (face4 c) (face5 c))]).
  repeat apply Permutation_app; apply sorted2_members.
Qed.

Lemma extract_pairs_pitch (c : cube Z) :
  Permutation (extract_pairs (pitch c)) (extract_pairs c).
Proof.
  unfold extract_pairs; cbn.
  rewrite (sorted2_sym (face1 c) (face0 c)). apply perm_swap.
Qed.

Lemma extract_pairs_yaw (c : cube Z) :
  Permutation (extract_pairs (yaw c)) (extract_pairs c).
Proof.
  unfold extract_pairs; cbn.
  rewrite (sorted2_sym (face3 c) (face2 c)). apply perm_skip, perm_swap.
Qed.

Lemma extract_pairs_roll (c : cube Z) :
  Permutation (extract_pairs (roll c)) (extract_pairs c).
Proof.
  unfold extract_pairs; cbn.
  rewrite (sorted2_sym (face1 c) (face0 c)). solve_perm.
Qed.

(** C9.  The opposing-pair decomposition does not depend on the
    orientation: each of pitch, yaw and roll leaves the multiset of the
    three unordered pairs (0-1), (2-3), (4-5) unchanged, and so does every
    composition of them. *)
Theorem extract_pairs_rotation_invariant (c : cube Z) :
  Permutation (extract_pairs (pitch c)) (extract_pairs c) /\
  Permutation (extract_pairs (yaw c)) (extract_pairs c) /\
  Permutation (extract_pairs (roll c)) (extract_pairs c) /\
  forall s, reachable c s -> Permutation (extract_pairs s) (extract_pairs c).
Proof.
  split; [apply extract_pairs_pitch | ].
  split; [apply extract_pairs_yaw | ].
  split; [apply extract_pairs_roll | ].
  induction 1 as [ | s _ IH | s _ IH | s _ IH ].
  - reflexivity.
  - now rewrite extract_pairs_pitch.
  - now rewrite extract_pairs_yaw.
  - now rewrite extract_pairs_roll.
Qed.

(* ===================================================================== *)
(** ** The reporting loop                                                 *)
(* ===================================================================== *)

Lemma index_Some {A : Type} (l : list A) (i : nat) (x : A) :
  nth_error l i = Some x -> index l i = Ok x.
Proof. unfold index. now intros ->. Qed.

Lemma index_Ok {A : Type} (l : list A) (i : nat) (x : A) :
  index l i = Ok x -> nth_error l i = Some x.
Proof. unfold index. destruct (nth_error l i); congruence. Qed.

(** A list of length six, spelled out. *)
Lemma length_six {A : Type} (l : list A) :
  length l = 6%nat -> exists a b c d e f, l = [a; b; c; d; e; f].
Proof.
  intros H.
  do 6 (destruct l as [ | ? l]; [discriminate H | ]).
  destruct l; [ | discriminate H].
  repeat eexists.
Qed.

(** On six cubes and six targets per axis the loop prints six lines, the
    one for cube [i] computed from that cube and its two targets. *)
Lemma report_rows_six (c0 c1 c2 c3 c4 c5 : cube Z)
    (f0 f1 f2 f3 f4 f5 l0 l1 l2 l3 l4 l5 : Z) :
  report_rows [c0; c1; c2; c3; c4; c5] [f0; f1; f2; f3; f4; f5]
              [l0; l1; l2; l3; l4; l5]
  = Ok [print_row 0 c0 f0 l0; print_row 1 c1 f1 l1; print_row 2 c2 f2 l2;
        print_row 3 c3 f3 l3; print_row 4 c4 f4 l4; print_row 5 c5 f5 l5].
Proof. reflexivity. Qed.

Lemma report_rows_complete (cubes : list (cube Z)) (fronts lefts : list Z) :
  length cubes = 6%nat -> length fronts = 6%nat -> length lefts = 6%nat ->
  exists rows,
    report_rows cubes fronts lefts = Ok rows /\ length rows = 6%nat /\
    forall j cj fj lj,
      nth_error cubes j = Some cj -> nth_error fronts j = Some fj ->
      nth_error lefts j = Some lj ->
      nth_error rows j = Some (print_row j cj fj lj).
Proof.
  intros Hc Hf Hl.
  destruct (length_six _ Hc) as (c0 & c1 & c2 & c3 & c4 & c5 & ->).
  destruct (length_six _ Hf) as (f0 & f1 & f2 & f3 & f4 & f5 & ->).
  destruct (length_six _ Hl) as (l0 & l1 & l2 & l3 & l4 & l5 & ->).
  rewrite report_rows_six. eexists. split; [reflexivity | split; [reflexivity | ]].
  intros j cj fj lj Hcj Hfj Hlj.
  do 6 (destruct j as [ | j];
        [ cbn in *; congruence | ]).
  destruct j; discriminate Hcj.
Qed.

(* ===================================================================== *)
(** ** [itertools.product]                                                *)
(* ===================================================================== *)

Lemma in_product {A : Type} (pool : list A) (n : nat) (l : list A) :
  In l (product pool n) <-> length l = n /\ Forall (fun x => In x pool) l.
Proof.
  revert l. induction n as [ | n IH]; intros l; cbn.
  - split.
    + intros [<- | []]. split; [reflexivity | constructor].
    + intros [Hlen _]. destruct l; [now left | discriminate Hlen].
  - rewrite in_flat_map. split.
    + intros (x & Hx & Hl). apply in_map_iff in Hl.
      destruct Hl as (t & <- & Ht). apply IH in Ht. destruct Ht as [Hlen Hall].
      split; [cbn; now rewrite Hlen | now constructor].
    + intros [Hlen Hall]. destruct l as [ | x t]; [discriminate Hlen | ].
      inversion Hall; subst. exists x. split; [assumption | ].
      apply in_map, IH. split; [now injection Hlen | assumption].
Qed.







(* ===================================================================== *)
(** ** Direction-set enumeration                                          *)
(* ===================================================================== *)

Lemma extract_pairs_index (c : cube Z) (a : nat) :
  (a < 3)%nat -> exists p, index (extract_pairs c) a = Ok p.
Proof.
  intros Ha. destruct a as [ | [ | [ | a]]]; try lia; eexists; reflexivity.
Qed.

(** With enough cubes and choices below 3 the selection never fails; it
    keeps one pair per cube, the chosen one. *)
Lemma select_pairs_ok (cubes : list (cube Z)) (indices : list nat) (start : nat) :
  (start + length indices <= length cubes)%nat ->
  Forall (fun a => In a [0; 1; 2]%nat) indices ->
  exists selected,
    select_pairs (cube_pairs cubes) start indices = Ok selected /\
    length selected = length indices /\
    forall k a, nth_error indices k = Some a ->
      exists c, nth_error cubes (start + k) = Some c /\
                nth_error selected k = nth_error (extract_pairs c) a.
Proof.
  revert start. induction indices as [ | a rest IH]; intros start Hlen Hall.
  - exists []. repeat split. intros [ | k] a H; discriminate H.
  - cbn in Hlen. inversion Hall as [ | ? ? Ha Hrest]; subst.
    destruct (nth_error cubes start) as [c | ] eqn:Hc;
      [ | apply nth_error_None in Hc; lia].
    assert (Ha3 : (a < 3)%nat) by (cbn in Ha; lia).
    destruct (extract_pairs_index c Ha3) as [p Hp].
    destruct (IH (S start)) as (sel & Hsel & Hsl & Hnth); [lia | assumption | ].
    exists (p :: sel). cbn.
    unfold cube_pairs at 1. unfold index at 1.
    rewrite nth_error_map, Hc. cbn. rewrite Hp. cbn.
    fold (cube_pairs cubes). rewrite Hsel. cbn.
    split; [reflexivity | split; [now rewrite Hsl | ]].
    intros [ | k] b Hb; cbn in Hb.
    + injection Hb as <-. exists c. rewrite Nat.add_0_r.
      split; [assumption | ]. cbn. symmetry. now apply index_Ok.
    + destruct (Hnth k b Hb) as (d & Hd & Hk).
      exists d. split; [ | exact Hk].
      now replace (start + S k)%nat with (S start + k)%nat by lia.
Qed.

(** When no selection fails, the loop keeps exactly the accepted
    combinations, in the order it met them. *)
Lemma enumerate_filter (cp : list (list pair)) (combos : list (list nat)) :
  (forall indices, In indices combos ->
     exists selected, select_pairs cp 0 indices = Ok selected) ->
  exists vc,
    enumerate cp combos = Ok vc /\
    map axes vc = filter (accepted cp) combos /\
    Forall (fun cfg => select_pairs cp 0 (axes cfg) = Ok (pairs cfg) /\
                       each_twice (numbers (pairs cfg)) = true) vc.
Proof.
  induction combos as [ | indices more IH]; intros Hok.
  - exists []. repeat split. constructor.
  - destruct (Hok indices (or_introl eq_refl)) as [sel Hsel].
    destruct IH as (vc & Hvc & Hmap & Hall).
    { intros i Hi. apply Hok. now right. }
    cbn [enumerate filter]. unfold accepted at 1.
    rewrite Hsel. cbn [bind]. rewrite Hvc. cbn [bind].
    destruct (each_twice (numbers sel)) eqn:Htwice.
    + eexists. split; [reflexivity | ]. split.
      * cbn [map axes]. f_equal. exact Hmap.
      * constructor; [now split | assumption].
    + exists vc. repeat split; assumption.
Qed.

Lemma each_twice_counts (l : list Z) :
  each_twice l = true <->
  forall k, 1 <= k <= 6 -> count_occ Z.eq_dec l k = 2%nat.
Proof.
  unfold each_twice. rewrite forallb_forall. split.
  - intros H k Hk. apply Nat.eqb_eq, H.
    assert (k = 1 \/ k = 2 \/ k = 3 \/ k = 4 \/ k = 5 \/ k = 6) by lia.
    cbn. intuition.
  - intros H k Hk. apply Nat.eqb_eq, H. cbn in Hk. lia.
Qed.

Lemma numbers_length (ps : list pair) :
  length (numbers ps) = (2 * length ps)%nat.
Proof.
  unfold numbers.
  induction ps as [ | p ps IH]; cbn [flat_map app length]; [reflexivity | lia].
Qed.

(** On six cubes every tuple of the product selects one pair per cube. *)
Lemma selection_six (cubes : list (cube Z)) (indices : list nat) :
  length cubes = 6%nat -> In indices (product [0; 1; 2]%nat 6) ->
  exists selected,
    select_pairs (cube_pairs cubes) 0 indices = Ok selected /\
    length selected = 6%nat /\
    forall k a, nth_error indices k = Some a ->
      exists c, nth_error cubes k = Some c /\
                nth_error selected k = nth_error (extract_pairs c) a.
Proof.
  intros Hsix Hin. apply in_product in Hin. destruct Hin as [Hlen Hall].
  destruct (@select_pairs_ok cubes indices 0) as (sel & Hs & Hl & Hnth);
    [rewrite Hlen, Hsix; cbn; lia | assumption | ].
  exists sel. split; [assumption | split; [congruence | exact Hnth]].
Qed.

(** On six cubes the enumeration does not fail. *)
Lemma valid_configs_six (cubes : list (cube Z)) :
  length cubes = 6%nat ->
  exists vc,
    valid_configs cubes = Ok vc /\
    map axes vc = filter (accepted (cube_pairs cubes)) (product [0; 1; 2]%nat 6) /\
    Forall (fun cfg =>
              select_pairs (cube_pairs cubes) 0 (axes cfg) = Ok (pairs cfg) /\
              each_twice (numbers (pairs cfg)) = true) vc.
Proof.
  intros Hsix. unfold valid_configs.
  apply (enumerate_filter (cube_pairs cubes) (product [0; 1; 2]%nat 6)).
  intros indices Hin. destruct (selection_six cubes Hsix Hin) as (sel & Hs & _).
  exists sel. exact Hs.
Qed.

Lemma valid_configs_axes (cubes : list (cube Z)) (vc : list config) (cfg : config) :
  length cubes = 6%nat -> valid_configs cubes = Ok vc -> In cfg vc ->
  In (axes cfg) (product [0; 1; 2]%nat 6) /\
  select_pairs (cube_pairs cubes) 0 (axes cfg) = Ok (pairs cfg) /\
  each_twice (numbers (pairs cfg)) = true.
Proof.
  intros Hsix Hvc Hin.
  destruct (valid_configs_six cubes Hsix) as (vc' & Hvc' & Hmap & Hall).
  assert (vc' = vc) by congruence. subst vc'.
  rewrite Forall_forall in Hall. split; [ | now apply Hall].
  assert (Hax : In (axes cfg) (map axes vc)) by now apply in_map.
  rewrite Hmap in Hax. apply filter_In in Hax. exact (proj1 Hax).
Qed.



(* ===================================================================== *)
(** ** Compatible-pair search                                             *)
(* ===================================================================== *)

Lemma flat_map_nil {A B : Type} (f : A -> list B) (l : list A) :
  flat_map f l = [] <-> forall x, In x l -> f x = [].
Proof.
  induction l as [ | a l IH]; cbn.
  - split; [contradiction | reflexivity].
  - split.
    + intros H. apply app_eq_nil in H. destruct H as [Ha Hl].
      intros x [<- | Hx]; [assumption | now apply IH].
    + intros H. rewrite (H a (or_introl eq_refl)). apply IH.
      intros x Hx. apply H. now right.
Qed.

(** The first element of a [flat_map] comes from the first argument whose
    image is not empty. *)
Lemma flat_map_head {A B : Type} (f : A -> list B) (l : list A) (y : B) (t : list B) :
  flat_map f l = y :: t ->
  exists l1 x l2 t',
    l = l1 ++ x :: l2 /\ (forall z, In z l1 -> f z = []) /\ f x = y :: t'.
Proof.
  induction l as [ | a l IH]; cbn; [discriminate | ].
  destruct (f a) as [ | b fa] eqn:Hfa; cbn.
  - intros H. destruct (IH H) as (l1 & x & l2 & t' & -> & Hl1 & Hx).
    exists (a :: l1), x, l2, t'. repeat split; [ | assumption].
    intros z [<- | Hz]; [assumption | now apply Hl1].
  - intros H. injection H as -> _.
    exists [], a, l, fa. repeat split; [contradiction | assumption].
Qed.

Lemma seq_split (a n : nat) (l1 l2 : list nat) (x : nat) :
  seq a n = l1 ++ x :: l2 ->
  (a <= x < a + n)%nat /\ forall z, (a <= z < x)%nat -> In z l1.
Proof.
  revert a n. induction l1 as [ | b l1 IH]; intros a n H.
  - destruct n as [ | n]; [discriminate H | ]. cbn in H. injection H as <- _.
    split; lia.
  - destruct n as [ | n]; [discriminate H | ]. cbn in H. injection H as <- H.
    destruct (IH _ _ H) as [Hx Hz]. split; [lia | ].
    intros z Hza. destruct (Nat.eq_dec z a) as [-> | Hne]; [now left | ].
    right. apply Hz. lia.
Qed.

Lemma collision_false (c1 c2 : config) :
  collision c1 c2 = false <-> compatible c1 c2.
Proof.
  unfold collision, compatible. split.
  - intros H k Hk Heq.
    assert (Hex : existsb (fun k => (nth k (axes c1) 0 =? nth k (axes c2) 0)%nat)
                    (seq 0 6) = true).
    { apply existsb_exists. exists k. split.
      - apply in_seq. lia.
      - now apply Nat.eqb_eq. }
    congruence.
  - intros H.
    destruct (existsb _ (seq 0 6)) eqn:Hex; [ | reflexivity].
    apply existsb_exists in Hex. destruct Hex as (k & Hk & Heq).
    apply in_seq in Hk. apply Nat.eqb_eq in Heq.
    exfalso. apply (H k); [lia | assumption].
Qed.

Lemma collision_true (c1 c2 : config) :
  collision c1 c2 = true <-> ~ compatible c1 c2.
Proof.
  rewrite <- collision_false. destruct (collision c1 c2); split; congruence.
Qed.

Section Scan.
Variable vc : list config.

Lemma cell_nil (i j : nat) (c1 c2 : config) :
  scan_row vc i = [] -> (i < j)%nat ->
  nth_error vc i = Some c1 -> nth_error vc j = Some c2 ->
  collision c1 c2 = true.
Proof.
  intros Hrow Hij H1 H2.
  assert (Hj : (j < length vc)%nat).
  { apply nth_error_Some. congruence. }
  assert (Hcell : scan_cell vc i j = []).
  { unfold scan_row in Hrow. rewrite flat_map_nil in Hrow. apply Hrow.
    apply in_seq. lia. }
  unfold scan_cell in Hcell. rewrite H1, H2 in Hcell.
  destruct (collision c1 c2); [reflexivity | discriminate Hcell].
Qed.

Lemma solutions_none :
  solutions vc = [] <->
  forall i j c1 c2, (i < j)%nat ->
    nth_error vc i = Some c1 -> nth_error vc j = Some c2 ->
    collision c1 c2 = true.
Proof.
  unfold solutions. rewrite flat_map_nil. split.
  - intros H i j c1 c2 Hij H1 H2.
    apply (@cell_nil i j); try assumption.
    apply H, in_seq.
    assert (i < length vc)%nat by (apply nth_error_Some; congruence). lia.
  - intros H i _. unfold scan_row. apply flat_map_nil. intros j Hj.
    apply in_seq in Hj. unfold scan_cell.
    destruct (nth_error vc i) as [c1 | ] eqn:H1; [ | reflexivity].
    destruct (nth_error vc j) as [c2 | ] eqn:H2; [ | reflexivity].
    rewrite (H i j c1 c2); [reflexivity | lia | assumption | assumption].
Qed.

Lemma solutions_first (c1 c2 : config) (rest : list (config * config)) :
  solutions vc = (c1, c2) :: rest ->
  exists i j,
    (i < j)%nat /\ nth_error vc i = Some c1 /\ nth_error vc j = Some c2 /\
    collision c1 c2 = false /\
    forall i' j' d1 d2, (i' < j')%nat -> scanned_before i' j' i j ->
      nth_error vc i' = Some d1 -> nth_error vc j' = Some d2 ->
      collision d1 d2 = true.
Proof.
  unfold solutions. intros H.
  apply flat_map_head in H.
  destruct H as (l1 & i & l2 & t1 & Hseq & Hbefore & Hrow).
  apply seq_split in Hseq. destruct Hseq as [Hi Hl1].
  unfold scan_row in Hrow. apply flat_map_head in Hrow.
  destruct Hrow as (k1 & j & k2 & t2 & Hseq & Hleft & Hcell).
  apply seq_split in Hseq. destruct Hseq as [Hj Hk1].
  unfold scan_cell in Hcell.
  destruct (nth_error vc i) as [a1 | ] eqn:H1; [ | discriminate Hcell].
  destruct (nth_error vc j) as [a2 | ] eqn:H2; [ | discriminate Hcell].
  destruct (collision a1 a2) eqn:Hcol; [discriminate Hcell | ].
  injection Hcell as <- <- _.
  exists i, j. repeat split; try assumption; [lia | ].
  intros i' j' d1 d2 Hij' [Hlt | [-> Hlt]] Hd1 Hd2.
  - apply (@cell_nil i' j'); try assumption.
    apply Hbefore, Hl1. lia.
  - assert (Hc : scan_cell vc i j' = []) by (apply Hleft, Hk1; lia).
    unfold scan_cell in Hc. rewrite Hd1, Hd2 in Hc.
    destruct (collision d1 d2); [reflexivity | discriminate Hc].
Qed.
End Scan.

Lemma solutions_compatible (vc : list config) (c1 c2 : config) :
  In (c1, c2) (solutions vc) -> compatible c1 c2.
Proof.
  unfold solutions, scan_row. intros H.
  apply in_flat_map in H. destruct H as (i & _ & H).
  apply in_flat_map in H. destruct H as (j & _ & H).
  unfold scan_cell in H.
  destruct (nth_error vc i) as [a1 | ]; [ | contradiction].
  destruct (nth_error vc j) as [a2 | ]; [ | contradiction].
  destruct (collision a1 a2) eqn:Hcol; [contradiction | ].
  destruct H as [H | []]. injection H as <- <-.
  apply collision_false, Hcol.
Qed.

(** C4.  On six cubes, with [vc] the valid direction sets in enumeration
    order: every pair kept by the scan is compatible (the two sets differ in
    their axis choice at each of the six cube positions).  Either no pair
    [vc[i], vc[j]] with [i < j] is compatible, and the run reports
    [NO SOLUTION FOUND.]; or the run goes on with the first compatible pair
    of the scan (outer index [i], inner index [j > i], every pair scanned
    before it collides) and its report, when it is produced, is a table. *)
Theorem first_compatible_pair (cubes : list (cube Z)) :
  length cubes = 6%nat ->
  exists vc,
    valid_configs cubes = Ok vc /\
    Forall (fun cfg => length (axes cfg) = 6%nat) vc /\
    (forall c1 c2, In (c1, c2) (solutions vc) -> compatible c1 c2) /\
    (((forall i j c1 c2, (i < j)%nat ->
         nth_error vc i = Some c1 -> nth_error vc j = Some c2 ->
         ~ compatible c1 c2) /\
      solve_specific_format cubes = Ok (NoSolution (length vc)))
     \/
     (exists i j c1 c2,
        (i < j)%nat /\ nth_error vc i = Some c1 /\ nth_error vc j = Some c2 /\
        compatible c1 c2 /\
        (forall i' j' d1 d2, (i' < j')%nat -> scanned_before i' j' i j ->
           nth_error vc i' = Some d1 -> nth_error vc j' = Some d2 ->
           ~ compatible d1 d2) /\
        solve_specific_format cubes =
          (final_fronts <- resolve_orientation (pairs c1) ;;
           final_lefts <- resolve_orientation (pairs c2) ;;
           rows <- report_rows cubes final_fronts final_lefts ;;
           Ok (Table (length vc) rows)) /\
        forall found, solve_specific_format cubes <> Ok (NoSolution found))).
Proof.
  intros Hsix.
  destruct (valid_configs_six cubes Hsix) as (vc & Hvc & _ & _).
  exists vc. split; [exact Hvc | split; [ | split]].
  - apply Forall_forall. intros cfg Hin.
    destruct (@valid_configs_axes cubes vc cfg Hsix Hvc Hin) as (Hax & _).
    apply in_product in Hax. exact (proj1 Hax).
  - apply solutions_compatible.
  - unfold solve_specific_format. rewrite Hvc. cbn [bind].
    destruct (solutions vc) as [ | [c1 c2] rest] eqn:Hsol.
    + left. split; [ | reflexivity].
      intros i j c1 c2 Hij H1 H2. apply collision_true.
      rewrite solutions_none in Hsol. now apply (Hsol i j).
    + right. apply solutions_first in Hsol.
      destruct Hsol as (i & j & Hij & H1 & H2 & Hcol & Hfirst).
      exists i, j, c1, c2.
      split; [exact Hij | split; [exact H1 | split; [exact H2 | ]]].
      split; [now apply collision_false | split; [ | split; [reflexivity | ]]].
      * intros i' j' d1 d2 Hij' Hbefore Hd1 Hd2. apply collision_true.
        now apply (Hfirst i' j').
      * intros found.
        destruct (resolve_orientation (pairs c1)); cbn [bind]; [ | discriminate].
        destruct (resolve_orientation (pairs c2)); cbn [bind]; [ | discriminate].
        destruct (report_rows cubes a a0); cbn [bind]; discriminate.
Qed.

Lemma first_compatible_pair_witness :
  exists vc,
    valid_configs my_cubes = Ok vc /\
    Forall (fun cfg => length (axes cfg) = 6%nat) vc /\
    (forall c1 c2, In (c1, c2) (solutions vc) -> compatible c1 c2) /\
    (((forall i j c1 c2, (i < j)%nat ->
         nth_error vc i = Some c1 -> nth_error vc j = Some c2 ->
         ~ compatible c1 c2) /\
      solve_specific_format my_cubes = Ok (NoSolution (length vc)))
     \/
     (exists i j c1 c2,
        (i < j)%nat /\ nth_error vc i = Some c1 /\ nth_error vc j = Some c2 /\
        compatible c1 c2 /\
        (forall i' j' d1 d2, (i' < j')%nat -> scanned_before i' j' i j ->
           nth_error vc i' = Some d1 -> nth_error vc j' = Some d2 ->
           ~ compatible d1 d2) /\
        solve_specific_format my_cubes =
          (final_fronts <- resolve_orientation (pairs c1) ;;
           final_lefts <- resolve_orientation (pairs c2) ;;
           rows <- report_rows my_cubes final_fronts final_lefts ;;
           Ok (Table (length vc) rows)) /\
        forall found, solve_specific_format my_cubes <> Ok (NoSolution found))).
Proof.
  apply (@first_compatible_pair my_cubes). reflexivity.
Defined.

(* ===================================================================== *)
(** ** Chirality resolution                                               *)
(* ===================================================================== *)

Lemma mapM_Ok {A B : Type} (f : A -> result B) (l : list A) (ys : list B) :
  mapM f l = Ok ys ->
  length ys = length l /\
  forall y, In y ys -> exists x, In x l /\ f x = Ok y.
Proof.
  revert ys. induction l as [ | x l IH]; cbn; intros ys H.
  - injection H as <-. split; [reflexivity | contradiction].
  - destruct (f x) as [y | e] eqn:Hfx; cbn in H; [ | discriminate H].
    destruct (mapM f l) as [ys' | e]; cbn in H; [ | discriminate H].
    injection H as <-. destruct (IH ys' eq_refl) as [Hlen Hin].
    split; [cbn; now rewrite Hlen | ].
    intros z [<- | Hz].
    + exists x. split; [now left | assumption].
    + destruct (Hin z Hz) as (x' & Hx' & Hfx'). exists x'. split; [now right | assumption].
Qed.

Lemma in_numbers (ps : list pair) (p : pair) :
  In p ps -> In (fst p) (numbers ps) /\ In (snd p) (numbers ps).
Proof.
  intros Hp. unfold numbers. split; apply in_flat_map; exists p; cbn; auto.
Qed.

(** The primary values are six members of the pairs. *)
Lemma primary_of_Ok (ps : list pair) (flips : list nat) (r : list Z) :
  primary_of ps flips = Ok r ->
  length r = 6%nat /\ forall y, In y r -> In y (numbers ps).
Proof.
  unfold primary_of. intros H. apply mapM_Ok in H. destruct H as [Hlen Hin].
  split; [exact Hlen | ].
  intros y Hy. destruct (Hin y Hy) as (k & _ & Hk).
  destruct (index ps k) as [p | ] eqn:Hp; cbn in Hk; [ | discriminate Hk].
  destruct (index flips k) as [f | ]; cbn in Hk; [ | discriminate Hk].
  apply index_Ok, nth_error_In, in_numbers in Hp.
  destruct f as [ | [ | f]]; cbn in Hk; try discriminate Hk;
    injection Hk as <-; tauto.
Qed.

Lemma nodup_length_le (l : list Z) :
  (length (nodup Z.eq_dec l) <= length l)%nat.
Proof.
  induction l as [ | x l IH]; cbn; [lia | ].
  destruct (in_dec Z.eq_dec x l); cbn; lia.
Qed.

Lemma nodup_same_length (l : list Z) :
  length (nodup Z.eq_dec l) = length l <-> NoDup l.
Proof.
  split.
  - induction l as [ | x l IH]; cbn; [constructor | ].
    destruct (in_dec Z.eq_dec x l) as [Hin | Hnin]; cbn; intros H.
    + pose proof (nodup_length_le l). lia.
    + constructor; [assumption | apply IH; lia].
  - intros H. now rewrite nodup_fixed_point.
Qed.

(** [len(set(primary)) == 6] on a list of six values says that they are
    pairwise different. *)
Lemma six_distinct_NoDup (primary : list Z) :
  length primary = 6%nat -> (six_distinct primary = true <-> NoDup primary).
Proof.
  intros Hlen. unfold six_distinct.
  rewrite Nat.eqb_eq, <- nodup_same_length, Hlen. reflexivity.
Qed.

Lemma count_split (l : list Z) :
  length l =
  (count_occ Z.eq_dec l 1%Z + count_occ Z.eq_dec l 2%Z +
   count_occ Z.eq_dec l 3%Z + count_occ Z.eq_dec l 4%Z +
   count_occ Z.eq_dec l 5%Z + count_occ Z.eq_dec l 6%Z +
   length (filter (fun x => negb (in_range x)) l))%nat.
Proof.
  induction l as [ | x l IH]; [reflexivity | ].
  cbn [count_occ filter length]. unfold in_range at 1.
  destruct (Z.leb_spec 1 x), (Z.leb_spec x 6); cbn [andb negb length];
    repeat (destruct (Z.eq_dec x _)); try lia.
Qed.

(** Twelve values among which each of 1..6 occurs twice are all in 1..6. *)
Lemma each_twice_range (l : list Z) (x : Z) :
  each_twice l = true -> length l = 12%nat -> In x l -> 1 <= x <= 6.
Proof.
  intros Htwice Hlen Hx.
  rewrite each_twice_counts in Htwice.
  pose proof (count_split l) as Hsplit.
  rewrite !Htwice in Hsplit by lia.
  destruct (in_range x) eqn:Hr.
  - unfold in_range in Hr. apply andb_true_iff in Hr. lia.
  - assert (Hf : In x (filter (fun x => negb (in_range x)) l)).
    { apply filter_In. split; [assumption | now rewrite Hr]. }
    destruct (filter (fun x => negb (in_range x)) l); [contradiction | ].
    cbn in Hsplit. lia.
Qed.

(** The loop returns the primary values of the first combination, in the
    order tried, whose values pass the test. *)
Lemma resolve_loop_first (ps : list pair) (combos : list (list nat)) (r : list Z) :
  resolve_loop ps combos = Ok r -> r <> [] ->
  exists n flips,
    nth_error combos n = Some flips /\
    primary_of ps flips = Ok r /\ six_distinct r = true /\
    forall m earlier, (m < n)%nat -> nth_error combos m = Some earlier ->
      exists q, primary_of ps earlier = Ok q /\ six_distinct q = false.
Proof.
  induction combos as [ | flips more IH]; cbn [resolve_loop]; intros H Hne.
  - injection H as <-. contradiction.
  - destruct (primary_of ps flips) as [q | e] eqn:Hq; cbn [bind] in H;
      [ | discriminate H].
    destruct (six_distinct q) eqn:Hsix.
    + injection H as <-. exists 0%nat, flips.
      repeat split; try assumption. intros m earlier Hm. lia.
    + destruct (IH H Hne) as (n & f & Hn & Hf & Hd & Hearlier).
      exists (S n), f. repeat split; try assumption.
      intros [ | m] earlier Hm Hnth; cbn in Hnth.
      * injection Hnth as <-. now exists q.
      * apply (Hearlier m); [lia | assumption].
Qed.



(* ===================================================================== *)
(** ** Valid direction sets always resolve                                *)
(* ===================================================================== *)

Lemma all_choosable_six : all_choosable 6 [] = true.
Proof. vm_cast_no_check (@eq_refl bool true). Qed.

Lemma cnt_count_occ (k : Z) (l : list Z) : cnt k l = count_occ Z.eq_dec l k.
Proof.
  induction l as [ | x l IH]; cbn; [reflexivity | ].
  destruct (Z.eqb_spec x k), (Z.eq_dec x k); congruence.
Qed.

Lemma in_candidates (p : pair) :
  In p candidates <-> 1 <= fst p /\ fst p <= snd p /\ snd p <= 6.
Proof.
  destruct p as [x y]. cbn [fst snd]. split.
  - intros H. unfold candidates in H. cbn in H.
    repeat (destruct H as [H | H]; [injection H as <- <-; lia | ]).
    contradiction.
  - intros H.
    assert (Hx : x = 1 \/ x = 2 \/ x = 3 \/ x = 4 \/ x = 5 \/ x = 6) by lia.
    assert (Hy : y = 1 \/ y = 2 \/ y = 3 \/ y = 4 \/ y = 5 \/ y = 6) by lia.
    unfold candidates. cbn.
    repeat (destruct Hx as [-> | Hx]); try subst x;
      repeat (destruct Hy as [-> | Hy]); try subst y;
      try lia; find_in_list.
Qed.

Lemma numbers_app (ps qs : list pair) :
  numbers (ps ++ qs) = numbers ps ++ numbers qs.
Proof. unfold numbers. apply flat_map_app. Qed.

(** A crowded branch cannot be completed to a valid direction set. *)
Lemma crowded_invalid (p : pair) (suffix front : list pair) :
  In p candidates -> crowded p suffix = true ->
  each_twice (numbers (front ++ p :: suffix)) = false.
Proof.
  intros Hp Hc. apply in_candidates in Hp.
  destruct (each_twice (numbers (front ++ p :: suffix))) eqn:Htwice;
    [ | reflexivity].
  rewrite each_twice_counts in Htwice. exfalso.
  assert (Hk : exists k, 1 <= k <= 6 /\
                 (2 < count_occ Z.eq_dec (numbers (p :: suffix)) k)%nat).
  { unfold crowded in Hc. cbv zeta in Hc.
    destruct (2 <? cnt (fst p) (numbers (p :: suffix)))%nat eqn:H1.
    - exists (fst p). apply Nat.ltb_lt in H1. rewrite cnt_count_occ in H1.
      split; [lia | exact H1].
    - exists (snd p). apply Nat.ltb_lt in Hc. rewrite cnt_count_occ in Hc.
      split; [lia | exact Hc]. }
  destruct Hk as (k & Hk & Hcount).
  specialize (Htwice k Hk).
  rewrite numbers_app, count_occ_app in Htwice. lia.
Qed.

Lemma all_choosable_sound (n : nat) (suffix : list pair) :
  all_choosable n suffix = true ->
  forall front, length front = n -> Forall (fun p => In p candidates) front ->
    each_twice (numbers (rev front ++ suffix)) = true ->
    choose (rev front ++ suffix) [] = true.
Proof.
  revert suffix. induction n as [ | n IH]; intros suffix Hall front Hlen Hcand Htwice.
  - destruct front; [ | discriminate Hlen].
    cbn [rev app all_choosable] in *.
    rewrite Htwice in Hall. exact Hall.
  - destruct front as [ | p front]; [discriminate Hlen | ].
    inversion Hcand as [ | ? ? Hp Hrest]; subst.
    cbn [rev] in *. rewrite <- app_assoc in *. cbn [app] in *.
    cbn [all_choosable] in Hall. rewrite forallb_forall in Hall.
    specialize (Hall p Hp).
    destruct (crowded p suffix) eqn:Hc.
    + rewrite (crowded_invalid suffix (rev front) Hp Hc) in Htwice.
      discriminate Htwice.
    + apply IH; try assumption. now injection Hlen.
Qed.

Lemma memZ_In (x : Z) (l : list Z) : memZ x l = true <-> In x l.
Proof.
  induction l as [ | y l IH]; cbn; [split; [discriminate | contradiction] | ].
  destruct (Z.eqb_spec x y).
  - split; [now left | reflexivity].
  - rewrite IH. split; [now right | intros [H | H]; congruence].
Qed.

Lemma choose_picks (ps : list pair) (used : list Z) :
  choose ps used = true ->
  exists r, Forall2 picks ps r /\ NoDup r /\ forall x, In x r -> ~ In x used.
Proof.
  revert used. induction ps as [ | p ps IH]; intros used H.
  - exists []. repeat split; [constructor | constructor | contradiction].
  - cbn [choose] in H.
    assert (Hx : exists x, picks p x /\ memZ x used = false /\
                           choose ps (x :: used) = true).
    { destruct (memZ (fst p) used) eqn:H1.
      - destruct (memZ (snd p) used) eqn:H2; [discriminate H | ].
        exists (snd p). unfold picks. auto.
      - destruct (choose ps (fst p :: used)) eqn:H3.
        + exists (fst p). unfold picks. auto.
        + destruct (memZ (snd p) used) eqn:H2; [discriminate H | ].
          exists (snd p). unfold picks. auto. }
    destruct Hx as (x & Hpick & Hfresh & Hrest).
    destruct (IH _ Hrest) as (r & Hr & Hnd & Hused).
    exists (x :: r). split; [now constructor | split].
    + constructor; [ | assumption].
      intros Hin. apply (Hused x Hin). now left.
    + intros y [<- | Hy].
      * intros Hin. apply memZ_In in Hin. congruence.
      * intros Hin. apply (Hused y Hy). now right.
Qed.

Lemma picks_flip (p : pair) (x : Z) :
  picks p x -> exists f, In f [0; 1]%nat /\ pair_index p f = Ok x.
Proof.
  intros [-> | ->]; [exists 0%nat | exists 1%nat]; cbn; auto.
Qed.

(** A choice of one member per pair is the list of primary values of some
    flip combination. *)
Lemma picks_primary (ps : list pair) (r : list Z) :
  length ps = 6%nat -> Forall2 picks ps r ->
  exists flips, In flips (product [0; 1]%nat 6) /\ primary_of ps flips = Ok r.
Proof.
  intros Hlen Hpicks.
  destruct (length_six _ Hlen) as (p0 & p1 & p2 & p3 & p4 & p5 & ->).
  repeat match goal with
         | H : Forall2 _ (_ :: _) _ |- _ => inversion H; clear H; subst
         | H : Forall2 _ [] _ |- _ => inversion H; clear H; subst
         end.
  repeat match goal with
         | H : picks _ _ |- _ =>
             apply picks_flip in H;
             let f := fresh "f" in let Hf := fresh "Hf" in
             let Hx := fresh "Hx" in destruct H as (f & Hf & Hx)
         end.
  exists [f4; f3; f2; f1; f0; f].
  split.
  - apply in_product. split; [reflexivity | ].
    repeat (apply Forall_cons; [assumption | ]). apply Forall_nil.
  - unfold primary_of. cbn [seq mapM index nth_error bind].
    rewrite Hx, Hx0, Hx1, Hx2, Hx3, Hx4. reflexivity.
Qed.

(** On six pairs no flip combination makes a subscript fail. *)
Lemma primary_of_total (ps : list pair) (flips : list nat) :
  length ps = 6%nat -> In flips (product [0; 1]%nat 6) ->
  exists q, primary_of ps flips = Ok q.
Proof.
  intros Hlen Hin. apply in_product in Hin. destruct Hin as [Hfl Hall].
  destruct (length_six _ Hlen) as (p0 & p1 & p2 & p3 & p4 & p5 & ->).
  destruct (length_six _ Hfl) as (f0 & f1 & f2 & f3 & f4 & f5 & ->).
  repeat match goal with
         | H : Forall _ (_ :: _) |- _ => inversion H; clear H; subst
         end.
  repeat match goal with
         | H : In _ [0%nat; 1%nat] |- _ => destruct H as [<- | [<- | []]]
         end;
    eexists; reflexivity.
Qed.

(** The loop finds a combination that passes the test when there is one. *)
Lemma resolve_loop_finds (ps : list pair) (combos : list (list nat)) :
  (forall flips, In flips combos -> exists q, primary_of ps flips = Ok q) ->
  (exists flips q, In flips combos /\ primary_of ps flips = Ok q /\
                   six_distinct q = true) ->
  exists r, resolve_loop ps combos = Ok r /\ six_distinct r = true.
Proof.
  induction combos as [ | flips more IH]; intros Htotal (g & q & Hin & Hq & Hd).
  - contradiction.
  - cbn [resolve_loop].
    destruct (Htotal flips (or_introl eq_refl)) as [q0 Hq0].
    rewrite Hq0. cbn [bind].
    destruct (six_distinct q0) eqn:Hd0.
    + exists q0. split; [reflexivity | assumption].
    + apply IH.
      * intros f Hf. apply Htotal. now right.
      * destruct Hin as [<- | Hin]; [congruence | ]. now exists g, q.
Qed.

(** Six pairs with each of 1..6 twice among their members: primary values
    that are pairwise different form a permutation of 1..6. *)
Lemma distinct_primary_permutation (ps : list pair) (flips : list nat) (r : list Z) :
  length ps = 6%nat -> each_twice (numbers ps) = true ->
  primary_of ps flips = Ok r -> six_distinct r = true ->
  length r = 6%nat /\ NoDup r /\ Permutation r [1; 2; 3; 4; 5; 6].
Proof.
  intros Hlen Htwice Hprim Hsix.
  destruct (primary_of_Ok _ _ Hprim) as [Hr6 Hmem].
  assert (Hnd : NoDup r) by now apply six_distinct_NoDup.
  split; [exact Hr6 | split; [exact Hnd | ]].
  apply NoDup_Permutation_bis; [exact Hnd | rewrite Hr6; cbn; lia | ].
  intros x Hx.
  assert (Hx6 : 1 <= x <= 6).
  { apply (@each_twice_range (numbers ps)); try assumption.
    - rewrite numbers_length, Hlen. reflexivity.
    - now apply Hmem. }
  cbn. lia.
Qed.

(** Six sorted pairs of face values with each of 1..6 twice among their
    members always resolve, to a permutation of 1..6. *)
Lemma valid_pairs_resolve (ps : list pair) :
  length ps = 6%nat -> Forall (fun p => In p candidates) ps ->
  each_twice (numbers ps) = true ->
  exists r, resolve_orientation ps = Ok r /\
            length r = 6%nat /\ NoDup r /\ Permutation r [1; 2; 3; 4; 5; 6].
Proof.
  intros Hlen Hcand Htwice.
  assert (Hch : choose ps [] = true).
  { rewrite <- (rev_involutive ps), <- (app_nil_r (rev (rev ps))).
    apply (@all_choosable_sound 6%nat [] all_choosable_six).
    - now rewrite length_rev.
    - apply Forall_rev, Hcand.
    - now rewrite app_nil_r, rev_involutive. }
  apply choose_picks in Hch. destruct Hch as (q & Hpicks & Hnd & _).
  destruct (picks_primary Hlen Hpicks) as (flips & Hflips & Hprim).
  destruct (primary_of_Ok _ _ Hprim) as [Hq6 _].
  destruct (@resolve_loop_finds ps (product [0; 1]%nat 6)) as (r & Hr & Hd).
  { intros f Hf. now apply primary_of_total. }
  { exists flips, q. split; [assumption | split; [assumption | ]].
    now apply six_distinct_NoDup. }
  exists r. split; [exact Hr | ].
  assert (Hne : r <> []).
  { intros ->. discriminate Hd. }
  destruct (resolve_loop_first _ _ Hr Hne) as (n & g & _ & Hg & _ & _).
  exact (@distinct_primary_permutation ps g r Hlen Htwice Hg Hd).
Qed.

Lemma sorted2_le (x y : Z) : fst (sorted2 x y) <= snd (sorted2 x y).
Proof. unfold sorted2. destruct (Z.ltb_spec y x); cbn; lia. Qed.

Lemma extract_pairs_sorted (c : cube Z) (p : pair) :
  In p (extract_pairs c) -> fst p <= snd p.
Proof.
  unfold extract_pairs. intros [<- | [<- | [<- | []]]]; apply sorted2_le.
Qed.

(** The pairs of a valid direction set of six cubes: six sorted pairs of
    face values in which each of 1..6 occurs twice. *)
Lemma config_pairs_valid (cubes : list (cube Z)) (vc : list config) (cfg : config) :
  length cubes = 6%nat -> valid_configs cubes = Ok vc -> In cfg vc ->
  length (pairs cfg) = 6%nat /\
  Forall (fun p => In p candidates) (pairs cfg) /\
  each_twice (numbers (pairs cfg)) = true.
Proof.
  intros Hsix Hvc Hin.
  destruct (@valid_configs_axes cubes vc cfg Hsix Hvc Hin) as (Hax & Hsel & Htwice).
  destruct (selection_six cubes Hsix Hax) as (sel & Hsel' & Hlen & Hnth).
  assert (sel = pairs cfg) by congruence. subst sel.
  split; [exact Hlen | split; [ | exact Htwice]].
  apply Forall_forall. intros p Hp.
  apply in_candidates.
  assert (Hsorted : fst p <= snd p).
  { destruct (In_nth_error _ _ Hp) as [k Hk].
    assert (Hk6 : (k < length (axes cfg))%nat).
    { apply in_product in Hax. destruct Hax as [-> _]. rewrite <- Hlen.
      apply nth_error_Some. congruence. }
    destruct (nth_error (axes cfg) k) as [a | ] eqn:Ha;
      [ | apply nth_error_None in Ha; lia].
    destruct (Hnth k a Ha) as (c & _ & Hc).
    rewrite Hk in Hc. symmetry in Hc.
    apply nth_error_In in Hc. now apply extract_pairs_sorted with (c := c). }
  destruct (in_numbers _ _ Hp) as [Hfst Hsnd].
  assert (H12 : length (numbers (pairs cfg)) = 12%nat).
  { rewrite numbers_length, Hlen. reflexivity. }
  pose proof (@each_twice_range _ (fst p) Htwice H12 Hfst).
  pose proof (@each_twice_range _ (snd p) Htwice H12 Hsnd).
  lia.
Qed.

Lemma resolve_loop_empty (ps : list pair) (combos : list (list nat)) :
  (forall flips, In flips combos ->
     exists q, primary_of ps flips = Ok q /\ six_distinct q = false) ->
  resolve_loop ps combos = Ok [].
Proof.
  induction combos as [ | flips more IH]; intros H; [reflexivity | ].
  cbn [resolve_loop].
  destruct (H flips (or_introl eq_refl)) as (q & -> & Hq). cbn [bind].
  rewrite Hq. apply IH. intros f Hf. apply H. now right.
Qed.

(** With an empty list of fronts the loop fails on its first subscript,
    whatever the cubes and the lefts. *)
Lemma report_rows_empty_fronts (cubes : list (cube Z)) (lefts : list Z) :
  report_rows cubes [] lefts = Raise IndexError.
Proof. reflexivity. Qed.



(** The run on the input table of the source. *)
Example solve_my_cubes :
  solve_specific_format my_cubes =
  Ok (Table 12
        [Row 1 1 4 2 5 3 6; Row 2 4 6 3 1 5 2; Row 3 5 2 6 3 4 1;
         Row 4 3 5 4 6 1 2; Row 5 6 3 1 2 4 5; Row 6 2 1 5 4 6 3]).
Proof. vm_compute. reflexivity. Qed.


(* ===================================================================== *)
(** ** More on the geometry engine                                        *)
(* ===================================================================== *)

Lemma reachable_trans {A : Type} (c s t : cube A) :
  reachable c s -> reachable s t -> reachable c t.
Proof.
  intros Hcs Hst. induction Hst as [ | u _ IH | u _ IH | u _ IH ].
  - exact Hcs.
  - now apply reach_pitch.
  - now apply reach_yaw.
  - now apply reach_roll.
Qed.

Lemma pitch_order_4 {A : Type} (c : cube A) : pitch (pitch (pitch (pitch c))) = c.
Proof. destruct c; reflexivity. Qed.

Lemma yaw_order_4 {A : Type} (c : cube A) : yaw (yaw (yaw (yaw c))) = c.
Proof. destruct c; reflexivity. Qed.

Lemma roll_order_4 {A : Type} (c : cube A) : roll (roll (roll (roll c))) = c.
Proof. destruct c; reflexivity. Qed.

(** X1.  The three rotations are quarter turns: each one applied four times
    is the identity, so three applications undo one (the source's
    [3 pitches = 1 reverse pitch]); roll is pitch, yaw and the reverse
    pitch composed; and what can be reached by rotating can be rotated
    back. *)
Theorem generators_quarter_turns (c : cube Z) :
  pitch (pitch (pitch (pitch c))) = c /\
  yaw (yaw (yaw (yaw c))) = c /\
  roll (roll (roll (roll c))) = c /\
  roll c = pitch (yaw (pitch (pitch (pitch c)))) /\
  forall s, reachable c s -> reachable s c.
Proof.
  split; [apply pitch_order_4 | ].
  split; [apply yaw_order_4 | ].
  split; [apply roll_order_4 | ].
  split; [destruct c; reflexivity | ].
  induction 1 as [ | s _ IH | s _ IH | s _ IH ].
  - constructor.
  - apply reachable_trans with (s := s); [ | exact IH].
    rewrite <- (pitch_order_4 s) at 2. repeat constructor.
  - apply reachable_trans with (s := s); [ | exact IH].
    rewrite <- (yaw_order_4 s) at 2. repeat constructor.
  - apply reachable_trans with (s := s); [ | exact IH].
    rewrite <- (roll_order_4 s) at 2. repeat constructor.
Qed.

(** What the search returns is reachable and has the targets in place. *)
Lemma search_sound {A : Type} (eqb : A -> A -> bool)
    (eqb_eq : forall x y, eqb x y = true <-> x = y)
    (c r : cube A) (a b : A) :
  get_valid_rotation eqb c a b = Some r ->
  reachable c r /\ face2 r = a /\ face4 r = b.
Proof.
  unfold get_valid_rotation. intros Hr.
  destruct (search_outcome eqb eqb_eq c a b) as (_ & Hreach & Hres).
  rewrite Hr in Hres. destruct Hres as (earlier & Hseen & Hhit & _).
  split.
  - apply Hreach. rewrite Hseen. now left.
  - now apply (hit_true eqb eqb_eq).
Qed.

(** What the search returns has its targets on adjacent slots. *)
Lemma found_means_adjacent (c r : cube Z) (a b : Z) :
  get_valid_rotation Z.eqb c a b = Some r -> on_adjacent_faces c a b.
Proof.
  intros Hr.
  destruct (search_sound Z.eqb Z.eqb_eq c a b Hr) as (Hreach & H2 & H4).
  apply reachable_orientations in Hreach.
  rewrite orientations_by_slots in Hreach.
  apply in_map_iff in Hreach. destruct Hreach as (p & <- & Hp).
  exists (face2 p), (face4 p).
  split; [now apply orientation_adjacent | split; assumption].
Qed.

(** X2.  For every cube, duplicates included, [get_valid_rotation] finds a
    rotation exactly when the two targets sit on two adjacent slots of the
    cube.  It returns [None] in every other case: a target that is not on
    the cube, or targets found only on the same slot or on opposite
    slots. *)
Theorem get_valid_rotation_succeeds_iff (c : cube Z) (a b : Z) :
  (exists r, get_valid_rotation Z.eqb c a b = Some r) <->
  on_adjacent_faces c a b.
Proof.
  split.
  - intros [r Hr]. exact (found_means_adjacent c a b Hr).
  - intros Hadj.
    destruct (search_finds Z.eqb Z.eqb_eq (adjacent_fits Hadj)) as (r & Hr & _).
    now exists r.
Qed.

(** Among the 24 orientations of [slots], Front and Left determine the
    orientation. *)
Lemma orientation_unique (p q : cube slot) :
  In p (orientations slots) -> In q (orientations slots) ->
  face2 p = face2 q -> face4 p = face4 q -> p = q.
Proof.
  intros Hp Hq H2 H4.
  assert (Hcheck :
    forallb (fun p => forallb (fun q =>
               if slot_eqb (face2 p) (face2 q) && slot_eqb (face4 p) (face4 q)
               then cube_eqb slot_eqb p q else true)
             (orientations slots)) (orientations slots) = true)
    by reflexivity.
  rewrite forallb_forall in Hcheck. specialize (Hcheck p Hp).
  rewrite forallb_forall in Hcheck. specialize (Hcheck q Hq).
  rewrite H2, H4 in Hcheck.
  rewrite (proj2 (slot_eqb_eq (face2 q) (face2 q)) eq_refl) in Hcheck.
  rewrite (proj2 (slot_eqb_eq (face4 q) (face4 q)) eq_refl) in Hcheck.
  cbn [andb] in Hcheck.
  now apply (cube_eqb_eq slot_eqb slot_eqb_eq).
Qed.

(** X3.  On a cube with six different face values the rotation is fixed by
    its Front and Left values: the cube returned by [get_valid_rotation] is
    the only orientation with the targets in those two slots, so Top,
    Bottom, Back and Right in the printed row are forced. *)
Theorem get_valid_rotation_unique (c r s : cube Z) (a b : Z) :
  distinct_faces c ->
  get_valid_rotation Z.eqb c a b = Some r ->
  reachable c s -> face2 s = a -> face4 s = b ->
  s = r.
Proof.
  intros Hd Hr Hs H2 H4.
  destruct (search_sound Z.eqb Z.eqb_eq c a b Hr) as (Hreach & Hr2 & Hr4).
  apply reachable_orientations in Hs, Hreach.
  rewrite orientations_by_slots in Hs, Hreach.
  apply in_map_iff in Hs, Hreach.
  destruct Hs as (p & <- & Hp). destruct Hreach as (q & <- & Hq).
  f_equal. apply orientation_unique; try assumption.
  - apply (get_injective Hd).
    change (face2 (cmap (get c) p) = face2 (cmap (get c) q)). congruence.
  - apply (get_injective Hd).
    change (face4 (cmap (get c) p) = face4 (cmap (get c) q)). congruence.
Qed.

Lemma get_valid_rotation_unique_witness :
  pitch (pitch (pitch (roll (roll (roll (pitch (Cube 4 1 2 5 6 3)))))))
  = Cube 4 1 3 6 2 5.
Proof.
  apply (@get_valid_rotation_unique (Cube 4 1 2 5 6 3) (Cube 4 1 3 6 2 5)
           (pitch (pitch (pitch (roll (roll (roll (pitch (Cube 4 1 2 5 6 3))))))))
           3 2).
  - unfold distinct_faces, faces; cbn. nodup_Z.
  - vm_compute. reflexivity.
  - repeat constructor.
  - reflexivity.
  - reflexivity.
Defined.

(** X4.  A search that fails on a cube with six different face values has
    visited every one of the 24 orientations, each once: [seen] holds
    exactly the 24 orientations when [None] is returned. *)
Theorem failed_search_visits_all (c : cube Z) (a b : Z) :
  distinct_faces c ->
  get_valid_rotation Z.eqb c a b = None ->
  Permutation (visited Z.eqb c a b) (orientations c) /\
  length (visited Z.eqb c a b) = 24%nat.
Proof.
  intros Hd Hnone.
  destruct (search_outcome Z.eqb Z.eqb_eq c a b) as (Hnd & Hreach & Hres).
  unfold get_valid_rotation in Hnone. rewrite Hnone in Hres.
  destruct Hres as [Hall _].
  assert (Hperm : Permutation (visited Z.eqb c a b) (orientations c)).
  { apply NoDup_Permutation.
    - exact Hnd.
    - now apply orientations_nodup.
    - intros s. split.
      + intros Hs. apply reachable_orientations, Hreach, Hs.
      + intros Hs. apply Hall, orientations_reachable, Hs. }
  split; [exact Hperm | ].
  rewrite (Permutation_length Hperm). apply orientations_length.
Qed.

Lemma failed_search_visits_all_witness :
  Permutation (visited Z.eqb (Cube 4 1 2 5 6 3) 4 1)
              (orientations (Cube 4 1 2 5 6 3)) /\
  length (visited Z.eqb (Cube 4 1 2 5 6 3) 4 1) = 24%nat.
Proof.
  apply (@failed_search_visits_all (Cube 4 1 2 5 6 3) 4 1).
  - unfold distinct_faces, faces; cbn. nodup_Z.
  - vm_compute. reflexivity.
Defined.

Lemma attempts_by_slots {A : Type} (c : cube A) :
  attempts c = map (cmap (get c)) (attempts slots).
Proof. destruct c; reflexivity. Qed.

Lemma attempts_slots_nodup : NoDup (attempts slots).
Proof.
  unfold attempts; cbn.
  repeat (constructor; [ cbn; intuition discriminate | ]).
  constructor.
Qed.

(** X5.  The list [attempts] built before the search (and never read):
    on a cube with six different face values it holds 12 different
    orientations of the cube, in which every face value of the cube shows
    up as Front, as the source's comment says; but it holds only half of
    the 24 orientations (the roll of the cube is missing), so scanning it
    could not replace the search. *)
Theorem attempts_cover_fronts_only (c : cube Z) :
  distinct_faces c ->
  length (attempts c) = 12%nat /\
  NoDup (attempts c) /\
  (forall s, In s (attempts c) -> reachable c s) /\
  (forall v, In v (faces c) -> exists s, In s (attempts c) /\ face2 s = v) /\
  ~ In (roll c) (attempts c).
Proof.
  intros Hd.
  split; [reflexivity | split; [ | split; [ | split]]].
  - rewrite attempts_by_slots. apply NoDup_map_NoDup_ForallPairs.
    + intros p q _ _. now apply cmap_get_injective.
    + exact attempts_slots_nodup.
  - intros s Hs. unfold attempts in Hs; cbn in Hs.
    repeat (destruct Hs as [<- | Hs]; [repeat constructor | ]).
    contradiction.
  - intros v Hv. unfold faces in Hv; cbn in Hv.
    destruct Hv as [<- | [<- | [<- | [<- | [<- | [<- | []]]]]]].
    + exists (pitch (pitch (pitch c))). split; [ | reflexivity].
      unfold attempts; cbn. find_in_list.
    + exists (pitch c). split; [ | reflexivity].
      unfold attempts; cbn. find_in_list.
    + exists c. split; [ | reflexivity]. now left.
    + exists (yaw (yaw c)). split; [ | reflexivity].
      unfold attempts; cbn. find_in_list.
    + exists (yaw c). split; [ | reflexivity].
      unfold attempts; cbn. find_in_list.
    + exists (yaw (yaw (yaw c))). split; [ | reflexivity].
      unfold attempts; cbn. find_in_list.
  - intros Hin. rewrite attempts_by_slots in Hin.
    apply in_map_iff in Hin. destruct Hin as (p & Hp & Hin).
    assert (Hroll : cmap (get c) p = cmap (get c) (roll slots)).
    { rewrite Hp. destruct c; reflexivity. }
    apply (cmap_get_injective Hd) in Hroll. subst p.
    unfold attempts in Hin; cbn in Hin. intuition discriminate.
Qed.

Lemma attempts_cover_fronts_only_witness :
  length (attempts (Cube 4 1 2 5 6 3)) = 12%nat /\
  NoDup (attempts (Cube 4 1 2 5 6 3)) /\
  (forall s, In s (attempts (Cube 4 1 2 5 6 3)) ->
             reachable (Cube 4 1 2 5 6 3) s) /\
  (forall v, In v (faces (Cube 4 1 2 5 6 3)) ->
             exists s, In s (attempts (Cube 4 1 2 5 6 3)) /\ face2 s = v) /\
  ~ In (roll (Cube 4 1 2 5 6 3)) (attempts (Cube 4 1 2 5 6 3)).
Proof.
  apply (@attempts_cover_fronts_only (Cube 4 1 2 5 6 3)).
  unfold distinct_faces, faces; cbn. nodup_Z.
Defined.

(* ===================================================================== *)
(** ** More on the solver                                                 *)
(* ===================================================================== *)

Lemma mapM_Forall2 {A B : Type} (f : A -> result B) (l : list A) (ys : list B) :
  mapM f l = Ok ys -> Forall2 (fun x y => f x = Ok y) l ys.
Proof.
  revert ys. induction l as [ | x l IH]; cbn; intros ys H.
  - injection H as <-. constructor.
  - destruct (f x) as [y | e] eqn:Hfx; cbn in H; [ | discriminate H].
    destruct (mapM f l) as [ys' | e]; cbn in H; [ | discriminate H].
    injection H as <-. constructor; [assumption | now apply IH].
Qed.

Lemma pick_at (ps : list pair) (flips : list nat) (k : nat) (p : pair) (y : Z) :
  nth_error ps k = Some p ->
  (q <- index ps k ;; f <- index flips k ;; pair_index q f) = Ok y ->
  picks p y.
Proof.
  intros Hp H. rewrite (index_Some _ _ Hp) in H. cbn [bind] in H.
  destruct (index flips k) as [[ | [ | f]] | ]; cbn in H;
    try discriminate H; injection H as <-; unfold picks; auto.
Qed.

(** The primary values are picked pair by pair, in order. *)
Lemma primary_of_picks (ps : list pair) (flips : list nat) (r : list Z) :
  length ps = 6%nat -> primary_of ps flips = Ok r -> Forall2 picks ps r.
Proof.
  intros Hlen Hprim.
  destruct (length_six _ Hlen) as (p0 & p1 & p2 & p3 & p4 & p5 & ->).
  unfold primary_of in Hprim. apply mapM_Forall2 in Hprim.
  cbn [seq] in Hprim.
  repeat match goal with
         | H : Forall2 _ (_ :: _) _ |- _ => inversion H; clear H; subst
         | H : Forall2 _ [] _ |- _ => inversion H; clear H; subst
         end.
  apply Forall2_cons; [eapply (pick_at _ _ 0); [ | eassumption]; reflexivity | ].
  apply Forall2_cons; [eapply (pick_at _ _ 1); [ | eassumption]; reflexivity | ].
  apply Forall2_cons; [eapply (pick_at _ _ 2); [ | eassumption]; reflexivity | ].
  apply Forall2_cons; [eapply (pick_at _ _ 3); [ | eassumption]; reflexivity | ].
  apply Forall2_cons; [eapply (pick_at _ _ 4); [ | eassumption]; reflexivity | ].
  apply Forall2_cons; [eapply (pick_at _ _ 5); [ | eassumption]; reflexivity | ].
  apply Forall2_nil.
Qed.

(** X6.  On any six pairs [resolve_orientation] raises nothing, and its
    result tells whether a choice exists: it is the empty list exactly
    when no flip combination gives six pairwise different values;
    otherwise it is a list of six pairwise different values, the k-th one
    a member of the k-th pair. *)
Theorem resolve_orientation_six_pairs (pairs_list : list pair) :
  length pairs_list = 6%nat ->
  exists r,
    resolve_orientation pairs_list = Ok r /\
    ((r = [] /\
      forall flips q, In flips (product [0; 1]%nat 6) ->
        primary_of pairs_list flips = Ok q -> ~ NoDup q)
     \/
     (length r = 6%nat /\ NoDup r /\ Forall2 picks pairs_list r)).
Proof.
  intros Hlen.
  assert (Htotal : forall flips, In flips (product [0; 1]%nat 6) ->
            exists q, primary_of pairs_list flips = Ok q).
  { intros flips Hin. now apply primary_of_total. }
  destruct (existsb (fun flips =>
              match primary_of pairs_list flips with
              | Ok q => six_distinct q
              | Raise _ => false
              end) (product [0; 1]%nat 6)) eqn:Hex.
  - apply existsb_exists in Hex. destruct Hex as (flips & Hin & Hq).
    destruct (primary_of pairs_list flips) as [q | ] eqn:Hprim;
      [ | discriminate Hq].
    destruct (@resolve_loop_finds pairs_list (product [0; 1]%nat 6) Htotal)
      as (r & Hr & Hd).
    { exists flips, q. split; [exact Hin | split; [exact Hprim | exact Hq]]. }
    exists r. split; [exact Hr | right].
    assert (Hne : r <> []) by (intros ->; discriminate Hd).
    destruct (resolve_loop_first _ _ Hr Hne) as (n & g & _ & Hg & _ & _).
    destruct (primary_of_Ok _ _ Hg) as [Hr6 _].
    split; [exact Hr6 | split].
    + now apply six_distinct_NoDup.
    + exact (@primary_of_picks pairs_list g r Hlen Hg).
  - exists []. split.
    + apply resolve_loop_empty. intros flips Hin.
      destruct (Htotal flips Hin) as [q Hq]. exists q. split; [exact Hq | ].
      destruct (six_distinct q) eqn:Hd; [ | reflexivity].
      assert (Hcontra : existsb (fun flips =>
                match primary_of pairs_list flips with
                | Ok q => six_distinct q
                | Raise _ => false
                end) (product [0; 1]%nat 6) = true).
      { apply existsb_exists. exists flips. split; [exact Hin | ].
        now rewrite Hq. }
      congruence.
    + left. split; [reflexivity | ].
      intros flips q Hin Hq Hnd.
      destruct (primary_of_Ok _ _ Hq) as [Hq6 _].
      apply (six_distinct_NoDup q Hq6) in Hnd.
      assert (Hcontra : existsb (fun flips =>
                match primary_of pairs_list flips with
                | Ok q => six_distinct q
                | Raise _ => false
                end) (product [0; 1]%nat 6) = true).
      { apply existsb_exists. exists flips. split; [exact Hin | ].
        now rewrite Hq. }
      congruence.
Qed.

Lemma resolve_orientation_six_pairs_witness :
  exists r,
    resolve_orientation [(1, 1); (1, 1); (2, 2); (3, 3); (4, 4); (5, 6)] = Ok r /\
    ((r = [] /\
      forall flips q, In flips (product [0; 1]%nat 6) ->
        primary_of [(1, 1); (1, 1); (2, 2); (3, 3); (4, 4); (5, 6)] flips = Ok q ->
        ~ NoDup q)
     \/
     (length r = 6%nat /\ NoDup r /\
      Forall2 picks [(1, 1); (1, 1); (2, 2); (3, 3); (4, 4); (5, 6)] r)).
Proof.
  apply (@resolve_orientation_six_pairs
           [(1, 1); (1, 1); (2, 2); (3, 3); (4, 4); (5, 6)]).
  reflexivity.
Defined.

Lemma product_3_6_head :
  product [0; 1; 2]%nat 6
  = [0; 0; 0; 0; 0; 0]%nat :: tl (product [0; 1; 2]%nat 6).
Proof. vm_compute. reflexivity. Qed.

(** X7.  With fewer than six cubes the run does not report anything: the
    first combination tried, (0, 0, 0, 0, 0, 0), subscripts [cube_pairs]
    past its end and [IndexError] is raised. *)
Theorem solve_needs_six_cubes (cubes : list (cube Z)) :
  (length cubes < 6)%nat ->
  solve_specific_format cubes = Raise IndexError.
Proof.
  intros Hlen.
  assert (Hsel : select_pairs (cube_pairs cubes) 0 [0; 0; 0; 0; 0; 0]%nat
                 = Raise IndexError).
  { do 6 (destruct cubes as [ | ? cubes]; [reflexivity | ]).
    cbn in Hlen. lia. }
  unfold solve_specific_format, valid_configs.
  rewrite product_3_6_head. cbn [enumerate]. rewrite Hsel. reflexivity.
Qed.

Lemma solve_needs_six_cubes_witness :
  solve_specific_format [Cube 4 1 2 5 6 3; Cube 6 4 5 2 3 1] = Raise IndexError.
Proof.
  apply (@solve_needs_six_cubes [Cube 4 1 2 5 6 3; Cube 6 4 5 2 3 1]).
  cbn. lia.
Defined.

Lemma index_app_l {A : Type} (l l' : list A) (i : nat) :
  (i < length l)%nat -> index (l ++ l') i = index l i.
Proof. intros Hi. unfold index. now rewrite nth_error_app1. Qed.

Lemma select_pairs_prefix (cp cp' : list (list pair)) (indices : list nat) (start : nat) :
  (start + length indices <= length cp)%nat ->
  select_pairs (cp ++ cp') start indices = select_pairs cp start indices.
Proof.
  revert start. induction indices as [ | a rest IH]; intros start Hlen;
    [reflexivity | ].
  cbn [select_pairs]. cbn [length] in Hlen.
  rewrite index_app_l by lia. rewrite IH by lia. reflexivity.
Qed.

Lemma select_pairs_app (cubes extra : list (cube Z)) (indices : list nat) (start : nat) :
  (start + length indices <= length cubes)%nat ->
  select_pairs (cube_pairs (cubes ++ extra)) start indices
  = select_pairs (cube_pairs cubes) start indices.
Proof.
  intros Hlen. unfold cube_pairs. rewrite map_app.
  apply select_pairs_prefix. now rewrite length_map.
Qed.

Lemma enumerate_ext (cp cp' : list (list pair)) (combos : list (list nat)) :
  (forall indices, In indices combos ->
     select_pairs cp 0 indices = select_pairs cp' 0 indices) ->
  enumerate cp combos = enumerate cp' combos.
Proof.
  induction combos as [ | indices more IH]; intros H; [reflexivity | ].
  cbn [enumerate]. rewrite (H indices (or_introl eq_refl)).
  rewrite IH; [reflexivity | ]. intros i Hi. apply H. now right.
Qed.

Lemma mapM_ext {A B : Type} (f g : A -> result B) (l : list A) :
  (forall x, In x l -> f x = g x) -> mapM f l = mapM g l.
Proof.
  induction l as [ | x l IH]; intros H; [reflexivity | ].
  cbn [mapM]. rewrite (H x (or_introl eq_refl)).
  rewrite IH; [reflexivity | ]. intros y Hy. apply H. now right.
Qed.

(** X8.  Only the first six cubes are read: cubes after the sixth change
    neither the direction sets found nor the report. *)
Theorem extra_cubes_ignored (cubes extra : list (cube Z)) :
  length cubes = 6%nat ->
  valid_configs (cubes ++ extra) = valid_configs cubes /\
  solve_specific_format (cubes ++ extra) = solve_specific_format cubes.
Proof.
  intros Hsix.
  assert (Hvc : valid_configs (cubes ++ extra) = valid_configs cubes).
  { unfold valid_configs. apply enumerate_ext. intros indices Hin.
    apply in_product in Hin. destruct Hin as [Hlen _].
    apply select_pairs_app. rewrite Hlen, Hsix. reflexivity. }
  split; [exact Hvc | ].
  unfold solve_specific_format. rewrite Hvc.
  destruct (valid_configs cubes) as [vc | e]; cbn [bind]; [ | reflexivity].
  destruct (solutions vc) as [ | [c1 c2] rest]; [reflexivity | ].
  destruct (resolve_orientation (pairs c1)) as [ff | e]; cbn [bind];
    [ | reflexivity].
  destruct (resolve_orientation (pairs c2)) as [fl | e]; cbn [bind];
    [ | reflexivity].
  assert (Hrows : report_rows (cubes ++ extra) ff fl = report_rows cubes ff fl).
  { unfold report_rows. apply mapM_ext. intros i Hi.
    apply in_seq in Hi. unfold report_row.
    rewrite index_app_l by lia. reflexivity. }
  rewrite Hrows. reflexivity.
Qed.

Lemma extra_cubes_ignored_witness :
  valid_configs (my_cubes ++ [Cube 1 2 3 4 5 6]) = valid_configs my_cubes /\
  solve_specific_format (my_cubes ++ [Cube 1 2 3 4 5 6])
  = solve_specific_format my_cubes.
Proof.
  apply (@extra_cubes_ignored my_cubes [Cube 1 2 3 4 5 6]). reflexivity.
Defined.

Lemma Forall2_at {A B : Type} (R : A -> B -> Prop) (l : list A) (l' : list B)
    (k : nat) (x : A) (y : B) :
  Forall2 R l l' -> nth_error l k = Some x -> nth_error l' k = Some y -> R x y.
Proof.
  intros H. revert k. induction H as [ | a b l l' Hab _ IH]; intros k Hx Hy.
  - destruct k; discriminate Hx.
  - destruct k as [ | k]; cbn in Hx, Hy.
    + injection Hx as <-. injection Hy as <-. exact Hab.
    + now apply (IH k).
Qed.

(** A member of the pair number [a] of a cube is the value of a slot of
    axis [a]. *)
Lemma axis_member (c : cube Z) (a : nat) (p : pair) (x : Z) :
  nth_error (extract_pairs c) a = Some p -> picks p x ->
  exists s, slot_axis s = a /\ get c s = x.
Proof.
  intros Hp Hx. unfold extract_pairs in Hp.
  destruct a as [ | [ | [ | a]]]; cbn in Hp;
    [injection Hp as <- | injection Hp as <- | injection Hp as <- | ].
  - destruct (sorted2_same_pair (face0 c) (face1 c)) as [E | E];
      rewrite E in Hx; destruct Hx as [-> | ->]; cbn;
      [exists Top | exists Bottom | exists Bottom | exists Top]; auto.
  - destruct (sorted2_same_pair (face2 c) (face3 c)) as [E | E];
      rewrite E in Hx; destruct Hx as [-> | ->]; cbn;
      [exists Front | exists Back | exists Back | exists Front]; auto.
  - destruct (sorted2_same_pair (face4 c) (face5 c)) as [E | E];
      rewrite E in Hx; destruct Hx as [-> | ->]; cbn;
      [exists Left | exists Right | exists Right | exists Left]; auto.
  - destruct a; discriminate Hp.
Qed.

(** Slots of different axes are adjacent. *)
Lemma axis_adjacent (s t : slot) : slot_axis s <> slot_axis t -> adjacent s t.
Proof.
  intros H. apply adjacentb_adjacent.
  destruct s, t; try reflexivity; exfalso; apply H; reflexivity.
Qed.

(** The targets that the solver derives for one cube from two direction
    sets that take different axes of it sit on adjacent faces. *)
Lemma targets_adjacent (c : cube Z) (a1 a2 : nat) (p1 p2 : pair) (f l : Z) :
  nth_error (extract_pairs c) a1 = Some p1 ->
  nth_error (extract_pairs c) a2 = Some p2 ->
  a1 <> a2 -> picks p1 f -> picks p2 l ->
  on_adjacent_faces c f l.
Proof.
  intros H1 H2 Hne Hf Hl.
  destruct (axis_member c a1 H1 Hf) as (s & Hs & <-).
  destruct (axis_member c a2 H2 Hl) as (t & Ht & <-).
  exists s, t. split; [ | split; reflexivity].
  apply axis_adjacent. congruence.
Qed.

(** What is known of a valid direction set of six cubes and of its
    resolution. *)
Lemma config_resolution (cubes : list (cube Z)) (vc : list config) (cfg : config) :
  length cubes = 6%nat -> valid_configs cubes = Ok vc -> In cfg vc ->
  exists r,
    resolve_orientation (pairs cfg) = Ok r /\
    Permutation r [1; 2; 3; 4; 5; 6] /\ length r = 6%nat /\
    Forall2 picks (pairs cfg) r /\
    length (pairs cfg) = 6%nat /\ length (axes cfg) = 6%nat /\
    forall k a, nth_error (axes cfg) k = Some a ->
      exists c, nth_error cubes k = Some c /\
                nth_error (pairs cfg) k = nth_error (extract_pairs c) a.
Proof.
  intros Hsix Hvc Hin.
  destruct (@config_pairs_valid cubes vc cfg Hsix Hvc Hin)
    as (Hlen & Hcand & Htwice).
  destruct (valid_pairs_resolve Hlen Hcand Htwice) as (r & Hr & Hr6 & _ & Hperm).
  destruct (@valid_configs_axes cubes vc cfg Hsix Hvc Hin) as (Hax & Hsel & _).
  destruct (selection_six cubes Hsix Hax) as (sel & Hsel' & _ & Hnth).
  assert (sel = pairs cfg) by congruence. subst sel.
  exists r. split; [exact Hr | split; [exact Hperm | split; [exact Hr6 | ]]].
  split; [ | split; [exact Hlen | split; [ | exact Hnth]]].
  - assert (Hne : r <> []) by (intros ->; discriminate Hr6).
    destruct (resolve_loop_first _ _ Hr Hne) as (n & g & _ & Hg & _ & _).
    exact (@primary_of_picks (pairs cfg) g r Hlen Hg).
  - apply in_product in Hax. exact (proj1 Hax).
Qed.

(** X9.  On six cubes a printed table never holds the error marker.  The
    front targets and the left targets are each a permutation of 1..6, and
    for every cube the search finds a rotation: line [i + 1] shows the
    rotation of cube [i] that has its front target in Front and its left
    target in Left. *)
Theorem table_rows_are_rotations (cubes : list (cube Z)) (found : nat) (rows : list line) :
  length cubes = 6%nat ->
  solve_specific_format cubes = Ok (Table found rows) ->
  exists fronts lefts,
    Permutation fronts [1; 2; 3; 4; 5; 6] /\
    Permutation lefts [1; 2; 3; 4; 5; 6] /\
    length rows = 6%nat /\
    forall i c, nth_error cubes i = Some c ->
      exists rotated f l,
        nth_error fronts i = Some f /\ nth_error lefts i = Some l /\
        get_valid_rotation Z.eqb c f l = Some rotated /\
        reachable c rotated /\
        nth_error rows i =
          Some (Row (i + 1) f (face3 rotated) l (face5 rotated)
                    (face0 rotated) (face1 rotated)).
Proof.
  intros Hsix Hsolve.
  destruct (valid_configs_six cubes Hsix) as (vc & Hvc & _ & _).
  unfold solve_specific_format in Hsolve. rewrite Hvc in Hsolve.
  cbn [bind] in Hsolve.
  destruct (solutions vc) as [ | [c1 c2] rest] eqn:Hsol; [discriminate Hsolve | ].
  assert (Hcompat : compatible c1 c2).
  { apply (@solutions_compatible vc). rewrite Hsol. now left. }
  apply solutions_first in Hsol.
  destruct Hsol as (i1 & i2 & _ & Hc1 & Hc2 & _).
  apply nth_error_In in Hc1, Hc2.
  destruct (@config_resolution cubes vc c1 Hsix Hvc Hc1)
    as (ff & Hff & Hpf & Hff6 & Hpicksf & Hpl1 & Hal1 & Hsel1).
  destruct (@config_resolution cubes vc c2 Hsix Hvc Hc2)
    as (fl & Hfl & Hpl & Hfl6 & Hpicksl & Hpl2 & Hal2 & Hsel2).
  rewrite Hff, Hfl in Hsolve. cbn [bind] in Hsolve.
  destruct (report_rows_complete cubes ff fl Hsix Hff6 Hfl6)
    as (rows' & Hrows & Hlen & Hnth).
  rewrite Hrows in Hsolve. cbn [bind] in Hsolve.
  injection Hsolve as _ <-.
  exists ff, fl. split; [exact Hpf | split; [exact Hpl | split; [exact Hlen | ]]].
  intros i c Hc.
  assert (Hi : (i < 6)%nat).
  { rewrite <- Hsix. apply nth_error_Some. congruence. }
  destruct (nth_error ff i) as [f | ] eqn:Hf;
    [ | apply nth_error_None in Hf; lia].
  destruct (nth_error fl i) as [l | ] eqn:Hl;
    [ | apply nth_error_None in Hl; lia].
  destruct (nth_error (axes c1) i) as [a1 | ] eqn:Ha1;
    [ | apply nth_error_None in Ha1; lia].
  destruct (nth_error (axes c2) i) as [a2 | ] eqn:Ha2;
    [ | apply nth_error_None in Ha2; lia].
  destruct (nth_error (pairs c1) i) as [p1 | ] eqn:Hp1;
    [ | apply nth_error_None in Hp1; lia].
  destruct (nth_error (pairs c2) i) as [p2 | ] eqn:Hp2;
    [ | apply nth_error_None in Hp2; lia].
  destruct (Hsel1 i a1 Ha1) as (c' & Hc' & He1).
  destruct (Hsel2 i a2 Ha2) as (c'' & Hc'' & He2).
  assert (c' = c) by congruence. assert (c'' = c) by congruence. subst c' c''.
  rewrite Hp1 in He1. rewrite Hp2 in He2.
  assert (Hne : a1 <> a2).
  { specialize (Hcompat i Hi).
    rewrite (nth_error_nth _ _ 0%nat Ha1) in Hcompat.
    rewrite (nth_error_nth _ _ 0%nat Ha2) in Hcompat. exact Hcompat. }
  assert (Hadj : on_adjacent_faces c f l).
  { apply (@targets_adjacent c a1 a2 p1 p2); try congruence.
    - exact (Forall2_at i Hpicksf Hp1 Hf).
    - exact (Forall2_at i Hpicksl Hp2 Hl). }
  destruct (search_finds Z.eqb Z.eqb_eq (adjacent_fits Hadj))
    as (rotated & Hrot & Hreach & H2 & H4).
  exists rotated, f, l.
  split; [reflexivity | split; [reflexivity | split; [exact Hrot | ]]].
  split; [exact Hreach | ].
  rewrite (Hnth i c f l Hc Hf Hl). unfold print_row. rewrite Hrot.
  rewrite H2, H4. reflexivity.
Qed.

Lemma table_rows_are_rotations_witness :
  exists fronts lefts,
    Permutation fronts [1; 2; 3; 4; 5; 6] /\
    Permutation lefts [1; 2; 3; 4; 5; 6] /\
    length [Row 1 1 4 2 5 3 6; Row 2 4 6 3 1 5 2; Row 3 5 2 6 3 4 1;
            Row 4 3 5 4 6 1 2; Row 5 6 3 1 2 4 5; Row 6 2 1 5 4 6 3] = 6%nat /\
    forall i c, nth_error my_cubes i = Some c ->
      exists rotated f l,
        nth_error fronts i = Some f /\ nth_error lefts i = Some l /\
        get_valid_rotation Z.eqb c f l = Some rotated /\
        reachable c rotated /\
        nth_error [Row 1 1 4 2 5 3 6; Row 2 4 6 3 1 5 2; Row 3 5 2 6 3 4 1;
                   Row 4 3 5 4 6 1 2; Row 5 6 3 1 2 4 5; Row 6 2 1 5 4 6 3] i =
          Some (Row (i + 1) f (face3 rotated) l (face5 rotated)
                    (face0 rotated) (face1 rotated)).
Proof.
  apply (@table_rows_are_rotations my_cubes 12).
  - reflexivity.
  - vm_compute. reflexivity.
Defined.

Lemma reachable_pairs (c s : cube Z) :
  reachable c s -> Permutation (extract_pairs s) (extract_pairs c).
Proof.
  induction 1 as [ | s _ IH | s _ IH | s _ IH ].
  - reflexivity.
  - now rewrite extract_pairs_pitch.
  - now rewrite extract_pairs_yaw.
  - now rewrite extract_pairs_roll.
Qed.

(** X10.  What one line of the table means, for any cube and any targets.
    A [Row] carries the cube number [i + 1], the two targets as Front and
    Left, six values that are a permutation of the cube's faces, and as
    (Top, Bottom), (Front, Back), (Left, Right) the three opposing pairs of
    the original cube.  An [ErrorRow] carries the number and the targets,
    and is printed exactly when the targets are not on adjacent faces. *)
Theorem print_row_meaning (i : nat) (c : cube Z) (target_f target_l : Z) :
  match print_row i c target_f target_l with
  | Row number f bk l r t b =>
      number = (i + 1)%nat /\ f = target_f /\ l = target_l /\
      Permutation [t; b; f; bk; l; r] (faces c) /\
      Permutation [sorted2 t b; sorted2 f bk; sorted2 l r] (extract_pairs c) /\
      on_adjacent_faces c target_f target_l
  | ErrorRow number f l =>
      number = (i + 1)%nat /\ f = target_f /\ l = target_l /\
      ~ on_adjacent_faces c target_f target_l
  end.
Proof.
  unfold print_row.
  destruct (get_valid_rotation Z.eqb c target_f target_l) as [rotated | ] eqn:Hr.
  - destruct (search_sound Z.eqb Z.eqb_eq c target_f target_l Hr)
      as (Hreach & H2 & H4).
    split; [reflexivity | split; [exact H2 | split; [exact H4 | ]]].
    split; [exact (reachable_faces Hreach) | split].
    + exact (reachable_pairs Hreach).
    + exact (found_means_adjacent c target_f target_l Hr).
  - repeat split.
    intros Hadj.
    destruct (search_finds Z.eqb Z.eqb_eq (adjacent_fits Hadj)) as (r & Hr' & _).
    congruence.
Qed.

(** X11.  Input is not validated; a cube that cannot take part in any
    direction set makes the run report [NO SOLUTION FOUND.] with zero
    sets found.  This is so as soon as one of six cubes has, on each of
    its three axes, a value outside 1..6. *)
Theorem unusable_cube_no_solution (cubes : list (cube Z)) (i : nat) (c : cube Z) :
  length cubes = 6%nat -> nth_error cubes i = Some c ->
  (forall p, In p (extract_pairs c) ->
             in_range (fst p) && in_range (snd p) = false) ->
  valid_configs cubes = Ok [] /\
  solve_specific_format cubes = Ok (NoSolution 0).
Proof.
  intros Hsix Hc Hbad.
  destruct (valid_configs_six cubes Hsix) as (vc & Hvc & _ & _).
  assert (Hempty : vc = []).
  { destruct vc as [ | cfg vc']; [reflexivity | exfalso].
    assert (Hin : In cfg (cfg :: vc')) by now left.
    destruct (@config_pairs_valid cubes (cfg :: vc') cfg Hsix Hvc Hin)
      as (Hlen & Hcand & _).
    destruct (@valid_configs_axes cubes (cfg :: vc') cfg Hsix Hvc Hin)
      as (Hax & _ & _).
    destruct (selection_six cubes Hsix Hax) as (sel & Hsel & _ & Hnth).
    destruct (@valid_configs_axes cubes (cfg :: vc') cfg Hsix Hvc Hin)
      as (_ & Hsel' & _).
    assert (sel = pairs cfg) by congruence. subst sel.
    assert (Hi : (i < 6)%nat).
    { rewrite <- Hsix. apply nth_error_Some. congruence. }
    apply in_product in Hax. destruct Hax as [Hal _].
    destruct (nth_error (axes cfg) i) as [a | ] eqn:Ha;
      [ | apply nth_error_None in Ha; lia].
    destruct (Hnth i a Ha) as (c' & Hc' & He).
    assert (c' = c) by congruence. subst c'.
    destruct (nth_error (pairs cfg) i) as [p | ] eqn:Hp;
      [ | apply nth_error_None in Hp; lia].
    symmetry in He. apply nth_error_In in He, Hp.
    rewrite Forall_forall in Hcand. apply Hcand, in_candidates in Hp.
    specialize (Hbad p He). unfold in_range in Hbad.
    apply andb_false_iff in Hbad.
    destruct Hbad as [Hb | Hb]; apply andb_false_iff in Hb;
      destruct Hb as [Hb | Hb]; apply Z.leb_gt in Hb; lia. }
  subst vc. split; [exact Hvc | ].
  unfold solve_specific_format. rewrite Hvc. reflexivity.
Qed.

Lemma unusable_cube_no_solution_witness :
  valid_configs
    [Cube 4 1 2 5 6 3; Cube 6 4 5 2 3 1; Cube 6 3 5 2 1 4;
     Cube 5 3 4 6 2 1; Cube 3 6 2 1 4 5; Cube 7 1 0 2 9 3] = Ok [] /\
  solve_specific_format
    [Cube 4 1 2 5 6 3; Cube 6 4 5 2 3 1; Cube 6 3 5 2 1 4;
     Cube 5 3 4 6 2 1; Cube 3 6 2 1 4 5; Cube 7 1 0 2 9 3]
  = Ok (NoSolution 0).
Proof.
  apply (@unusable_cube_no_solution
           [Cube 4 1 2 5 6 3; Cube 6 4 5 2 3 1; Cube 6 3 5 2 1 4;
            Cube 5 3 4 6 2 1; Cube 3 6 2 1 4 5; Cube 7 1 0 2 9 3]
           5 (Cube 7 1 0 2 9 3)).
  - reflexivity.
  - reflexivity.
  - intros p [<- | [<- | [<- | []]]]; reflexivity.
Defined.

(* ===================================================================== *)
(** ** The reporting loop, cube by cube                                   *)
(* ===================================================================== *)

(** C6.  On a cube with six different face values, two values on opposite
    slots are never shown as Front and Left: [get_valid_rotation] returns
    [None].  In the reporting loop that cube gets the error marker and the
    loop goes on: it prints six lines, and every other cube is rotated and
    printed on its own account.  A cube whose targets sit on adjacent
    faces gets the row of the rotation found for it (its targets as Front
    and Left, the other four values read off the rotated cube); only a
    cube whose targets are not on adjacent faces gets the error marker. *)
Theorem opposite_targets_error_row
    (cubes : list (cube Z)) (fronts lefts : list Z)
    (i : nat) (c : cube Z) (a b : Z) :
  length cubes = 6%nat -> length fronts = 6%nat -> length lefts = 6%nat ->
  nth_error cubes i = Some c ->
  nth_error fronts i = Some a -> nth_error lefts i = Some b ->
  distinct_faces c -> on_opposite_faces c a b ->
  get_valid_rotation Z.eqb c a b = None /\
  exists rows,
    report_rows cubes fronts lefts = Ok rows /\ length rows = 6%nat /\
    nth_error rows i = Some (ErrorRow (i + 1) a b) /\
    forall j cj fj lj,
      nth_error cubes j = Some cj -> nth_error fronts j = Some fj ->
      nth_error lefts j = Some lj ->
      (on_adjacent_faces cj fj lj ->
       exists rotated,
         get_valid_rotation Z.eqb cj fj lj = Some rotated /\
         reachable cj rotated /\
         Permutation (faces rotated) (faces cj) /\
         face2 rotated = fj /\ face4 rotated = lj /\
         nth_error rows j =
           Some (Row (j + 1) fj (face3 rotated) lj (face5 rotated)
                     (face0 rotated) (face1 rotated))) /\
      (~ on_adjacent_faces cj fj lj ->
       get_valid_rotation Z.eqb cj fj lj = None /\
       nth_error rows j = Some (ErrorRow (j + 1) fj lj)).
Proof.
  intros Hc Hf Hl Hi Ha Hb Hd Hopp.
  assert (Hnone : get_valid_rotation Z.eqb c a b = None).
  { apply (search_fails Z.eqb Z.eqb_eq).
    now apply opposite_never_fits. }
  split; [exact Hnone | ].
  destruct (report_rows_complete cubes fronts lefts Hc Hf Hl)
    as (rows & Hrows & Hlen & Hnth).
  exists rows.
  split; [exact Hrows | split; [exact Hlen | split]].
  - rewrite (Hnth i c a b Hi Ha Hb). unfold print_row. now rewrite Hnone.
  - intros j cj fj lj Hcj Hfj Hlj. rewrite (Hnth j cj fj lj Hcj Hfj Hlj).
    unfold print_row. split.
    + intros Hadj.
      destruct (search_finds Z.eqb Z.eqb_eq (adjacent_fits Hadj))
        as (rotated & Hrot & Hreach & H2 & H4).
      exists rotated. rewrite Hrot.
      split; [reflexivity | split; [exact Hreach | ]].
      split; [exact (reachable_faces Hreach) | ].
      split; [exact H2 | split; [exact H4 | ]].
      now rewrite H2, H4.
    + intros Hnadj.
      destruct (get_valid_rotation Z.eqb cj fj lj) as [rotated | ] eqn:Hrot.
      * exfalso. apply Hnadj.
        exact (found_means_adjacent cj fj lj Hrot).
      * split; reflexivity.
Qed.

Lemma opposite_targets_error_row_witness :
  get_valid_rotation Z.eqb (Cube 4 1 2 5 6 3) 4 1 = None /\
  exists rows,
    report_rows my_cubes [4; 4; 5; 3; 6; 2] [1; 3; 6; 4; 1; 5] = Ok rows /\
    length rows = 6%nat /\
    nth_error rows 0 = Some (ErrorRow (0 + 1) 4 1) /\
    forall j cj fj lj,
      nth_error my_cubes j = Some cj ->
      nth_error [4; 4; 5; 3; 6; 2] j = Some fj ->
      nth_error [1; 3; 6; 4; 1; 5] j = Some lj ->
      (on_adjacent_faces cj fj lj ->
       exists rotated,
         get_valid_rotation Z.eqb cj fj lj = Some rotated /\
         reachable cj rotated /\
         Permutation (faces rotated) (faces cj) /\
         face2 rotated = fj /\ face4 rotated = lj /\
         nth_error rows j =
           Some (Row (j + 1) fj (face3 rotated) lj (face5 rotated)
                     (face0 rotated) (face1 rotated))) /\
      (~ on_adjacent_faces cj fj lj ->
       get_valid_rotation Z.eqb cj fj lj = None /\
       nth_error rows j = Some (ErrorRow (j + 1) fj lj)).
Proof.
  apply (@opposite_targets_error_row my_cubes [4; 4; 5; 3; 6; 2]
           [1; 3; 6; 4; 1; 5] 0 (Cube 4 1 2 5 6 3) 4 1);
    try reflexivity.
  - unfold distinct_faces, faces; cbn. nodup_Z.
  - exists Top. split; reflexivity.
Defined.

(** The loop on the input table with an opposite pair of targets for the
    first cube: one error marker, five rotated cubes. *)
Example report_rows_one_error :
  report_rows my_cubes [4; 4; 5; 3; 6; 2] [1; 3; 6; 4; 1; 5] =
  Ok [ErrorRow 1 4 1; Row 2 4 6 3 1 5 2; Row 3 5 2 6 3 4 1;
      Row 4 3 5 4 6 1 2; Row 5 6 3 1 2 4 5; Row 6 2 1 5 4 6 3].
Proof. vm_compute. reflexivity. Qed.

(* ===================================================================== *)
(** ** The printed table                                                  *)
(* ===================================================================== *)

Module RenderFacts.
Import Stdlib.Strings.String Stdlib.Strings.Ascii.
Import Render.

Lemma append_length (s1 s2 : string) :
  String.length (s1 ++ s2)%string = (String.length s1 + String.length s2)%nat.
Proof. induction s1 as [ | a s1 IH]; cbn; [reflexivity | now rewrite IH]. Qed.

Lemma repeat_char_length (c : ascii) (n : nat) :
  String.length (repeat_char c n) = n.
Proof. induction n as [ | n IH]; cbn; [reflexivity | now rewrite IH]. Qed.

(** Padding fills up to the width and never cuts. *)
Lemma ljust_length (width : nat) (s : string) :
  String.length (ljust width s) = Nat.max width (String.length s).
Proof. unfold ljust. rewrite append_length, repeat_char_length. lia. Qed.

Lemma str_int_digit (z : Z) : 0 <= z <= 9 -> String.length (str_int z) = 1%nat.
Proof.
  intros Hz.
  assert (H : z = 0 \/ z = 1 \/ z = 2 \/ z = 3 \/ z = 4 \/ z = 5 \/ z = 6 \/
              z = 7 \/ z = 8 \/ z = 9) by lia.
  repeat (destruct H as [-> | H]; [reflexivity | ]). subst z. reflexivity.
Qed.

Lemma str_nat_digit (n : nat) : (n <= 9)%nat -> String.length (str_nat n) = 1%nat.
Proof.
  intros Hn. do 10 (destruct n as [ | n]; [reflexivity | ]). lia.
Qed.

Lemma row_length (number : nat) (f bk l r t b : Z) :
  String.length (str_nat number) = 1%nat ->
  String.length (str_int f) = 1%nat -> String.length (str_int bk) = 1%nat ->
  String.length (str_int l) = 1%nat -> String.length (str_int r) = 1%nat ->
  String.length (str_int t) = 1%nat -> String.length (str_int b) = 1%nat ->
  String.length (render_line (Row number f bk l r t b)) = 53%nat.
Proof.
  intros Hn Hf Hbk Hl Hr Ht Hb. unfold render_line.
  rewrite !append_length, !ljust_length, Hn, Hf, Hbk, Hl, Hr, Ht, Hb.
  reflexivity.
Qed.

(** X12.  The table lines up: for a cube whose face values are single
    digits and targets on adjacent faces, the line printed for it by any
    of the six rounds of the loop has the 53 characters of the header
    line. *)
Theorem table_line_width (i : nat) (c : cube Z) (target_f target_l : Z) :
  (i < 6)%nat ->
  (forall v, In v (faces c) -> 0 <= v <= 9) ->
  on_adjacent_faces c target_f target_l ->
  String.length (render_line (print_row i c target_f target_l)) = 53%nat /\
  String.length header = 53%nat.
Proof.
  intros Hi Hdigits Hadj. split; [ | reflexivity].
  destruct (search_finds Z.eqb Z.eqb_eq (adjacent_fits Hadj))
    as (rotated & Hrot & Hreach & _).
  unfold print_row. rewrite Hrot.
  pose proof (reachable_faces Hreach) as Hperm.
  assert (Hface : forall v, In v (faces rotated) -> 0 <= v <= 9).
  { intros v Hv. apply Hdigits. now apply (Permutation_in v Hperm). }
  apply row_length.
  - apply str_nat_digit. lia.
  - apply str_int_digit, Hface. unfold faces; cbn; auto.
  - apply str_int_digit, Hface. unfold faces; cbn; auto.
  - apply str_int_digit, Hface. unfold faces; cbn; auto 6.
  - apply str_int_digit, Hface. unfold faces; cbn; auto 7.
  - apply str_int_digit, Hface. unfold faces; cbn; auto.
  - apply str_int_digit, Hface. unfold faces; cbn; auto.
Qed.

Lemma table_line_width_witness :
  String.length (render_line (print_row 0 (Cube 4 1 2 5 6 3) 1 2)) = 53%nat /\
  String.length header = 53%nat.
Proof.
  apply (@table_line_width 0 (Cube 4 1 2 5 6 3) 1 2).
  - lia.
  - intros v Hv. unfold faces in Hv; cbn in Hv.
    destruct Hv as [<- | [<- | [<- | [<- | [<- | [<- | []]]]]]]; lia.
  - exists Bottom, Front. repeat split; discriminate.
Defined.
End RenderFacts.
